(** * Set-of-marks page annotation: a model of [browser-annotate.js] and of
    the two clean-up scripts, with the properties of the selection, the
    annotation and the clean-up.

    The page is modelled as the tree of its elements.  A reference to a live
    element is the list of child positions that leads to it from the
    document: [markPage] only writes attributes and appends after the last
    child of the body, so a reference taken during the scan denotes the same
    element to the end of the call.  What the layout engine answers
    ([getClientRects], [elementFromPoint], the viewport sizes) is a record
    of the host that the script only reads, and reads before it writes
    anything.  Lengths are rationals: the script adds, subtracts, halves and
    compares them and nothing else.  A script that dereferences a [null]
    ([document.documentElement], [document.body]) stops with what it has
    written so far. *)

From Stdlib Require Import QArith Qminmax Permutation Sorted Lqa.
From stdpp Require Import base option list strings gmap pretty sorting.
From Equations Require Import Equations.
From Equations.Prop Require Import Logic.

Set Default Proof Using "Type".
Local Open Scope nat_scope.

(** ** Geometry *)

(** A rectangle as [getClientRects] reports it.  The script reads the six
    fields below and nothing is assumed about how they relate. *)
Record DOMRect := mkDOMRect {
  bb_left : Q; bb_top : Q; bb_right : Q; bb_bottom : Q;
  bb_width : Q; bb_height : Q }.

(** The object the script builds for a visible rectangle:
    [{left, top, right, bottom, width, height}]. *)
Record Rect := mkRect {
  rect_left : Q; rect_top : Q; rect_right : Q; rect_bottom : Q;
  rect_width : Q; rect_height : Q }.

(** ** The document *)

(** An inline style as the list of its declarations; a length in pixels
    keeps its number. *)
Inductive CssValue :=
| px (q : Q)
| css (s : string).

Definition CssText := list (string * CssValue).

#[warnings="-register-all"]
Inductive Node := mkNode {
  tagName : string;
  attributes : gmap string string;
  style : CssText;
  textContent : string;
  children : list Node }.

(** The element children of the document node; a parsed page has one, the
    [html] element. *)
Abbreviation Document := (list Node) (only parsing).

(** A reference to an element: the child positions from the document down
    to it.  The empty list is the document itself, which is no element. *)
Abbreviation Element := (list nat) (only parsing).

Definition Element_eqb (a b : Element) : bool := bool_decide (a = b).

Fixpoint nodeAt (forest : list Node) (e : Element) : option Node :=
  match e with
  | [] => None
  | i :: rest =>
      match forest !! i with
      | None => None
      | Some n => match rest with [] => Some n | _ => nodeAt (children n) rest end
      end
  end.

(** [parentElement]: the document is not an element, so the root has none. *)
Definition parentElement (e : Element) : option Element :=
  match removelast e with
  | [] => None
  | p => Some p
  end.

(** [a.contains(b)]: [b] is [a] or one of its descendants. *)
Fixpoint contains (a b : Element) : bool :=
  match a, b with
  | [], _ => true
  | i :: a', j :: b' => (i =? j) && contains a' b'
  | _ :: _, [] => false
  end.

(** [a.contains(x)] for an [x] that may be [null]. *)
Definition containsOpt (a : Element) (x : option Element) : bool :=
  match x with
  | None => false
  | Some b => contains a b
  end.

(** Inclusive descendants of a node in document order, relative to it. *)
Fixpoint subtree (n : Node) : list Element :=
  [] :: (fix kids (cs : list Node) (i : nat) : list Element :=
           match cs with
           | [] => []
           | c :: cs' => map (cons i) (subtree c) ++ kids cs' (S i)
           end) (children n) 0.

Fixpoint forestFrom (cs : list Node) (i : nat) : list Element :=
  match cs with
  | [] => []
  | c :: cs' => map (cons i) (subtree c) ++ forestFrom cs' (S i)
  end.

(** [document.querySelectorAll("*")] *)
Definition querySelectorAll_star (doc : Document) : list Element :=
  forestFrom doc 0.

Definition hasAttribute (n : Node) (name : string) : bool :=
  bool_decide (is_Some (attributes n !! name)).

Definition getAttribute (n : Node) (name : string) : option string :=
  attributes n !! name.

Definition elementHasAttribute (doc : Document) (name : string) (e : Element) : bool :=
  match nodeAt doc e with
  | Some n => hasAttribute n name
  | None => false
  end.

(** [document.querySelectorAll("[name]")] *)
Definition querySelectorAll_attr (name : string) (doc : Document) : list Element :=
  List.filter (elementHasAttribute doc name) (querySelectorAll_star doc).

(** *** Updates in place *)

Definition withAttributes (f : gmap string string → gmap string string) (n : Node) : Node :=
  mkNode (tagName n) (f (attributes n)) (style n) (textContent n) (children n).

Definition withChildren (f : list Node → list Node) (n : Node) : Node :=
  mkNode (tagName n) (attributes n) (style n) (textContent n) (f (children n)).

Fixpoint updateAt (f : Node → Node) (forest : list Node) (e : Element) : list Node :=
  match e with
  | [] => forest
  | i :: rest =>
      match rest with
      | [] => alter f i forest
      | _ => alter (withChildren (fun cs => updateAt f cs rest)) i forest
      end
  end.

Definition setAttribute (e : Element) (name value : string) (doc : Document) : Document :=
  updateAt (withAttributes (insert name value)) doc e.

Definition removeAttribute (e : Element) (name : string) (doc : Document) : Document :=
  updateAt (withAttributes (delete name)) doc e.

Definition appendChild (parent : Element) (child : Node) (doc : Document) : Document :=
  updateAt (withChildren (fun cs => cs ++ [child])) doc parent.

(** [document.body]: the first [body] or [frameset] child of the [html]
    root, [null] when there is none. *)
Definition isBodyTag (n : Node) : bool :=
  bool_decide (tagName n = "BODY") || bool_decide (tagName n = "FRAMESET").

Fixpoint findIndex {A} (f : A → bool) (l : list A) : option nat :=
  match l with
  | [] => None
  | x :: l' => if f x then Some 0 else S <$> findIndex f l'
  end.

Definition body (doc : Document) : option Element :=
  match doc with
  | html :: _ =>
      if bool_decide (tagName html = "HTML")
      then (fun i => [0; i]) <$> findIndex isBodyTag (children html)
      else None
  | [] => None
  end.

(** ** What the host answers about layout *)

Record Layout := mkLayout {
  clientWidth : Q;   (* document.documentElement.clientWidth *)
  innerWidth : Q;    (* window.innerWidth *)
  clientHeight : Q;
  innerHeight : Q;
  getClientRects : Element → list DOMRect;
  elementFromPoint : Q → Q → option Element }.

Definition Qlt_bool (a b : Q) : bool := negb (Qle_bool b a).

(** [x || 0] on a number. *)
Definition orZero (x : Q) : Q := if Qeq_bool x 0 then 0%Q else x.

(** ** markPage: scan and selection *)

Definition MAX_ELEMENTS : nat := 60.
Definition MIN_AREA : Q := 20.
Definition LABEL_FONT_SIZE : Q := 16.
Definition LABEL_PADDING : Q := 3.

Definition viewportWidth (L : Layout) : Q :=
  Qmax (orZero (clientWidth L)) (orZero (innerWidth L)).

Definition viewportHeight (L : Layout) : Q :=
  Qmax (orZero (clientHeight L)) (orZero (innerHeight L)).

(** [list.includes(x)] for an [x] that may be [null]. *)
Definition includes (l : list string) (x : option string) : bool :=
  match x with
  | Some s => existsb (String.eqb s) l
  | None => false
  end.

Definition isInteractive (element : Node) : bool :=
  String.eqb (tagName element) "INPUT" ||
  String.eqb (tagName element) "TEXTAREA" ||
  String.eqb (tagName element) "SELECT" ||
  String.eqb (tagName element) "BUTTON" ||
  String.eqb (tagName element) "A" ||
  String.eqb (tagName element) "IFRAME" ||
  String.eqb (tagName element) "VIDEO" ||
  (hasAttribute element "role" &&
   includes ["button"; "link"; "checkbox"; "menuitem"; "tab"]
            (getAttribute element "role")).

Definition center_x (bb : DOMRect) : Q := (bb_left bb + bb_width bb / 2)%Q.
Definition center_y (bb : DOMRect) : Q := (bb_top bb + bb_height bb / 2)%Q.

(** The first filter over the client rectangles:
    [elAtCenter === element || element.contains(elAtCenter)]. *)
Definition centerHit (L : Layout) (element : Element) (bb : DOMRect) : bool :=
  let elAtCenter := elementFromPoint L (center_x bb) (center_y bb) in
  bool_decide (elAtCenter = Some element) || containsOpt element elAtCenter.

(** The first [map]: the four clipped edges. *)
Record Box := mkBox { box_left : Q; box_top : Q; box_right : Q; box_bottom : Q }.

Definition clip (vw vh : Q) (bb : DOMRect) : Box :=
  {| box_left := Qmax 0 (bb_left bb);
     box_top := Qmax 0 (bb_top bb);
     box_right := Qmin vw (bb_right bb);
     box_bottom := Qmin vh (bb_bottom bb) |}.

(** The second [map]: the edges with [width] and [height] added. *)
Definition withSize (rect : Box) : Rect :=
  {| rect_left := box_left rect; rect_top := box_top rect;
     rect_right := box_right rect; rect_bottom := box_bottom rect;
     rect_width := (box_right rect - box_left rect)%Q;
     rect_height := (box_bottom rect - box_top rect)%Q |}.

Definition hasSize (rect : Rect) : bool :=
  Qlt_bool 0 (rect_width rect) && Qlt_bool 0 (rect_height rect).

Definition visibleRects (L : Layout) (element : Element) : list Rect :=
  List.filter hasSize
    (map withSize
       (map (clip (viewportWidth L) (viewportHeight L))
          (List.filter (centerHit L element) (getClientRects L element)))).

Definition totalArea (rects : list Rect) : Q :=
  fold_left (fun acc rect => (acc + rect_width rect * rect_height rect)%Q) rects 0%Q.

(** [getDepth]: the [while (current.parentElement)] loop. *)
Equations? getDepth_loop (current : Element) (depth : nat) : nat
  by wf (length current) lt :=
  getDepth_loop current depth with inspect (parentElement current) := {
    | exist _ (Some parent) Hparent => getDepth_loop parent (S depth)
    | exist _ None _ => depth }.
Proof.
  unfold parentElement in Hparent.
  destruct (removelast current) eqn:Hr; [discriminate|].
  injection Hparent as <-. rewrite <- Hr.
  destruct current as [|i rest]; [discriminate|].
  assert (Hlen : length (removelast (i :: rest)) = length rest).
  { clear. revert i. induction rest as [|j rest IH]; intros i; [reflexivity|].
    change (S (length (removelast (j :: rest))) = S (length rest)).
    f_equal. apply IH. }
  rewrite Hlen. simpl. lia.
Qed.

Definition getDepth (element : Element) : nat := getDepth_loop element 0.

(** The record built for an element that passes the scan.  The [text] field
    of the script (the trimmed text of the element, for the caller's log) is
    read by no later stage and is left out. *)
Record Candidate := mkCandidate {
  element : Element;
  rects : list Rect;
  area : Q;
  depth : nat }.

(** The callback of the first [map]; [None] is the script's [null]. *)
Definition scanElement (L : Layout) (doc : Document) (e : Element) : option Candidate :=
  match nodeAt doc e with
  | None => None
  | Some n =>
      if negb (isInteractive n) then None
      else
        let rects := visibleRects L e in
        if length rects =? 0 then None
        else
          let area := totalArea rects in
          if Qlt_bool area MIN_AREA then None
          else Some {| element := e; rects := rects; area := area;
                       depth := getDepth e |}
  end.

(** [Array.from(document.querySelectorAll("*")).map(...).filter(Boolean)] *)
Definition scanPage (L : Layout) (doc : Document) : list Candidate :=
  omap (scanElement L doc) (querySelectorAll_star doc).

(** Nested elements are removed; the inner [items] is the list before the
    filter. *)
Definition nestedIn (items : list Candidate) (x : Candidate) : bool :=
  existsb (fun y => contains (element y) (element x)
                    && negb (Element_eqb (element x) (element y))) items.

Definition removeNested (items : list Candidate) : list Candidate :=
  List.filter (fun x => negb (nestedIn items x)) items.

(** The comparator handed to [sort]. *)
Definition compareItems (a b : Candidate) : Q :=
  if negb (depth a =? depth b)
  then inject_Z (Z.of_nat (depth a) - Z.of_nat (depth b))
  else (area b - area a)%Q.

(** [Array.prototype.sort] is a stable sort: of two items that the
    comparator does not order, the one that came first stays first. *)
Fixpoint insertItem {A} (cmp : A → A → Q) (x : A) (l : list A) : list A :=
  match l with
  | [] => [x]
  | y :: l' => if Qle_bool (cmp x y) 0 then x :: y :: l'
               else y :: insertItem cmp x l'
  end.

Fixpoint sort {A} (cmp : A → A → Q) (l : list A) : list A :=
  match l with
  | [] => []
  | x :: l' => insertItem cmp x (sort cmp l')
  end.

Definition prioritize (items : list Candidate) : list Candidate :=
  if MAX_ELEMENTS <? length items
  then take MAX_ELEMENTS (sort compareItems items)
  else items.

(** The items that reach the annotation pass. *)
Definition selectItems (L : Layout) (doc : Document) : list Candidate :=
  prioritize (removeNested (scanPage L doc)).

(** ** markPage: annotation *)

(** A script either runs to its end or stops where the host throws; what it
    had written to the page by then stays. *)
Inductive Completion (A : Type) :=
| Normal (a : A)
| Throw (error : string).
Arguments Normal {A} a.
Arguments Throw {A} error.

Definition JS (A : Type) : Type := Document → Completion A * Document.

#[export] Instance JS_ret : MRet JS := fun A a doc => (Normal a, doc).

#[export] Instance JS_bind : MBind JS := fun A B k m doc =>
  match m doc with
  | (Normal a, doc') => k a doc'
  | (Throw error, doc') => (Throw error, doc')
  end.

(** [list.forEach((x, index) => ...)] *)
Fixpoint forEach {A} (f : A → nat → JS unit) (l : list A) (index : nat) : JS unit :=
  match l with
  | [] => mret tt
  | x :: l' => f x index;; forEach f l' (S index)
  end.

Definition labelHeight : Q := 20.

Definition labelTop (bbox : Rect) : Q :=
  if Qlt_bool (rect_top bbox) labelHeight
  then (rect_height bbox + 2)%Q
  else (- labelHeight)%Q.

Definition labelLeft : Q := 0.

Definition createLabel (index : nat) (bbox : Rect) : Node :=
  {| tagName := "SPAN";
     attributes := ∅;
     style := [("position", css "absolute");
               ("top", px (labelTop bbox));
               ("left", px labelLeft);
               ("background", css "#000");
               ("color", css "#fff");
               ("padding", px LABEL_PADDING);
               ("font-size", px LABEL_FONT_SIZE);
               ("font-family", css "Arial, sans-serif");
               ("font-weight", css "bold");
               ("border-radius", px 3);
               ("line-height", css "1");
               ("white-space", css "nowrap");
               ("box-shadow", css "0 2px 4px rgba(0,0,0,0.3)")];
     textContent := pretty index;
     children := [] |}.

Definition createContainer (index : nat) (bbox : Rect) : Node :=
  {| tagName := "DIV";
     attributes := {[ "data-voyager-rect-index" := pretty index ]};
     style := [("outline", css "2px dashed #000");
               ("position", css "fixed");
               ("left", px (rect_left bbox));
               ("top", px (rect_top bbox));
               ("width", px (rect_width bbox));
               ("height", px (rect_height bbox));
               ("pointer-events", css "none");
               ("box-sizing", css "border-box");
               ("z-index", css "2147483647")];
     textContent := "";
     children := [createLabel index bbox] |}.

(** [document.body.appendChild(container)] *)
Definition bodyAppendChild (container : Node) : JS unit :=
  fun doc =>
    match body doc with
    | Some b => (Normal tt, appendChild b container doc)
    | None => (Throw "TypeError", doc)
    end.

(** The callback of [items.forEach]: the index is written on the element,
    then one box with its label is made and appended per rectangle.  The
    array [labels] that the script also pushes each box on is never read. *)
Definition annotate (item : Candidate) (index : nat) : JS unit :=
  ((fun doc => (Normal tt,
                setAttribute (element item) "data-voyager-element-index"
                             (pretty index) doc)) : JS unit);;
  forEach (fun bbox _ => bodyAppendChild (createContainer index bbox))
          (rects item) 0.

(** The script reads [document.documentElement.clientWidth] first, which
    throws on a document without a root element. *)
Definition markPage (L : Layout) : JS (list nat) :=
  fun doc =>
    match doc with
    | [] => (Throw "TypeError", doc)
    | _ :: _ =>
        let items := selectItems L doc in
        (forEach annotate items 0;;
         mret (imap (fun index _ => index) items)) doc
    end.

(** ** The clean-up scripts *)

(** [querySelectorAll("[name]").forEach((el) => el.remove())]: the list is
    taken once; each listed element is detached with all below it, so what
    stays in the document is every element with no listed element on the way
    up from it, itself included. *)
Fixpoint removeFrom (name : string) (n : Node) : Node :=
  {| tagName := tagName n; attributes := attributes n; style := style n;
     textContent := textContent n;
     children :=
       (fix kids (cs : list Node) : list Node :=
          match cs with
          | [] => []
          | c :: cs' => if hasAttribute c name then kids cs'
                        else removeFrom name c :: kids cs'
          end) (children n) |}.

Fixpoint removeAll (name : string) (cs : list Node) : list Node :=
  match cs with
  | [] => []
  | c :: cs' => if hasAttribute c name then removeAll name cs'
                else removeFrom name c :: removeAll name cs'
  end.

(** [querySelectorAll("[selected]").forEach((el) => el.removeAttribute(removed))] *)
Definition removeAttributeFromAll (selected removed : string) (doc : Document) : Document :=
  fold_left (fun d el => removeAttribute el removed d)
            (querySelectorAll_attr selected doc) doc.

Definition clearRectsAndTags (doc : Document) : Document :=
  removeAttributeFromAll "date-voyager-element-index" "data-voyager-element-index"
    (removeAll "data-voyager-rect-index" doc).

Definition clearElements (doc : Document) : Document :=
  removeAttributeFromAll "data-voyager-element-index" "data-voyager-element-index" doc.

(** ** Sample pages *)

Definition emptyNode (tag : string) (cs : list Node) : Node :=
  {| tagName := tag; attributes := ∅; style := []; textContent := "";
     children := cs |}.

Definition nodeWith (tag : string) (attrs : gmap string string) (cs : list Node) : Node :=
  {| tagName := tag; attributes := attrs; style := []; textContent := "";
     children := cs |}.

Definition boxAt (x y w h : Q) : DOMRect :=
  {| bb_left := x; bb_top := y; bb_right := (x + w)%Q; bb_bottom := (y + h)%Q;
     bb_width := w; bb_height := h |}.

Definition inBox (bb : DOMRect) (x y : Q) : bool :=
  Qle_bool (bb_left bb) x && Qle_bool x (bb_right bb) &&
  Qle_bool (bb_top bb) y && Qle_bool y (bb_bottom bb).

(** A page with one button of 100 by 40 at (10, 10). *)
Definition oneButtonDoc : Document :=
  [emptyNode "HTML" [emptyNode "HEAD" []; emptyNode "BODY" [emptyNode "BUTTON" []]]].

Definition oneButtonLayout : Layout :=
  {| clientWidth := 800; innerWidth := 800; clientHeight := 600; innerHeight := 600;
     getClientRects := fun e =>
       if Element_eqb e [0; 1; 0] then [boxAt 10 10 100 40] else [];
     elementFromPoint := fun x y =>
       if inBox (boxAt 10 10 100 40) x y then Some [0; 1; 0] else Some [0; 1] |}.



(** A link around a [span] with [role="button"]; the span is on top. *)
Definition nestedDoc : Document :=
  [emptyNode "HTML"
     [emptyNode "HEAD" [];
      emptyNode "BODY"
        [emptyNode "A" [nodeWith "SPAN" {[ "role" := "button" ]} []]]]].

Definition nestedLayout : Layout :=
  {| clientWidth := 800; innerWidth := 800; clientHeight := 600; innerHeight := 600;
     getClientRects := fun e =>
       if Element_eqb e [0; 1; 0] then [boxAt 10 30 120 40]
       else if Element_eqb e [0; 1; 0; 0] then [boxAt 20 35 100 30]
       else [];
     elementFromPoint := fun x y =>
       if inBox (boxAt 20 35 100 30) x y then Some [0; 1; 0; 0]
       else if inBox (boxAt 10 30 120 40) x y then Some [0; 1; 0]
       else Some [0; 1] |}.

(** A hundred buttons side by side in the body, ten to a row, the [i]-th
    one [40 + i] wide and 20 high. *)
Definition gridBox (i : nat) : DOMRect :=
  boxAt (inject_Z (Z.of_nat (150 * (i mod 10))))
        (inject_Z (Z.of_nat (60 * (i / 10))))
        (inject_Z (Z.of_nat (40 + i))) 20.

Definition gridDoc : Document :=
  [emptyNode "HTML"
     [emptyNode "HEAD" [];
      emptyNode "BODY" (map (fun _ => emptyNode "BUTTON" []) (seq 0 100))]].

Definition gridLayout : Layout :=
  {| clientWidth := 1600; innerWidth := 1600; clientHeight := 800; innerHeight := 800;
     getClientRects := fun e =>
       match e with
       | [0; 1; i] => if i <? 100 then [gridBox i] else []
       | _ => []
       end;
     elementFromPoint := fun x y =>
       match findIndex (fun i => inBox (gridBox i) x y) (seq 0 100) with
       | Some i => Some [0; 1; i]
       | None => Some [0; 1]
       end |}.

(** A button of 150 by 40 that starts 100 to the left of the viewport: 50
    of its width shows, its centre does not, and the host answers [null]
    for a point off the viewport. *)
Definition edgeLayout : Layout :=
  {| clientWidth := 800; innerWidth := 800; clientHeight := 600; innerHeight := 600;
     getClientRects := fun e =>
       if Element_eqb e [0; 1; 0] then [boxAt (-100) 10 150 40] else [];
     elementFromPoint := fun x y =>
       if Qlt_bool x 0 || Qlt_bool y 0 || Qlt_bool 800 x || Qlt_bool 600 y
       then None
       else if inBox (boxAt (-100) 10 150 40) x y then Some [0; 1; 0]
       else Some [0; 1] |}.

(** ** The text of a candidate *)

(** A string of the script: its UTF-16 code units. *)
Abbreviation JSString := (list N) (only parsing).

(** The characters that [trim] strips and that [\s] matches: the white
    space and line terminator code points of the language (tab, line feed,
    vertical tab, form feed, carriage return, space, no-break space, the
    other space separators, the line and paragraph separators, and the byte
    order mark). *)
Definition isWhiteSpace (c : N) : bool :=
  bool_decide (c ∈ [9; 10; 11; 12; 13; 32; 160; 5760; 8232; 8233; 8239; 8287;
                    12288; 65279]%N)
  || ((8192 <=? c)%N && (c <=? 8202)%N).

Fixpoint trimStart (s : JSString) : JSString :=
  match s with
  | [] => []
  | c :: rest => if isWhiteSpace c then trimStart rest else s
  end.

Definition trimEnd (s : JSString) : JSString := rev (trimStart (rev s)).

(** [s.trim()] *)
Definition trim (s : JSString) : JSString := trimEnd (trimStart s).

Definition startsWithWhiteSpace (s : JSString) : bool :=
  match s with
  | [] => false
  | c :: _ => isWhiteSpace c
  end.

(** [s.replace(/\s{2,}/g, " ")]: from left to right, a longest run of two
    or more white space characters becomes one space; anything else is
    copied. *)
Equations? collapseSpaces (s : JSString) : JSString by wf (length s) lt :=
  collapseSpaces [] := [];
  collapseSpaces (c :: rest) with isWhiteSpace c && startsWithWhiteSpace rest := {
    | true := 32%N :: collapseSpaces (trimStart rest);
    | false := c :: collapseSpaces rest }.
Proof.
  assert (length (trimStart rest) ≤ length rest) as Hlen.
  { clear. induction rest as [|c rest IH]; simpl; [done|].
    destruct (isWhiteSpace c); simpl; lia. }
  simpl. lia.
Qed.

(** The [text] field of a candidate:
    [element.textContent.trim().replace(/\s{2,}/g, " ").substring(0, 100)]. *)
Definition candidateText (textContent : JSString) : JSString :=
  take 100 (collapseSpaces (trim textContent)).

(** Does a string end with, or hold two neighbouring, white space
    characters? *)
Definition endsWithWhiteSpace (s : JSString) : bool :=
  startsWithWhiteSpace (rev s).

Fixpoint adjacentWhiteSpace (s : JSString) : bool :=
  match s with
  | [] => false
  | c :: rest =>
      (isWhiteSpace c && startsWithWhiteSpace rest) || adjacentWhiteSpace rest
  end.

Definition notWhiteSpace (c : N) : bool := negb (isWhiteSpace c).



(** A page with nothing to mark. *)
Definition plainDoc : Document :=
  [emptyNode "HTML" [emptyNode "HEAD" []; emptyNode "BODY" [emptyNode "DIV" []]]].

(** ** Vocabulary of the statements *)

Definition elementIndexAttr : string := "data-voyager-element-index".
Definition rectIndexAttr : string := "data-voyager-rect-index".

(** The elements on which one call of [markPage] writes an index, in the
    order of their indices. *)
Definition taggedElements (L : Layout) (doc : Document) : list Element :=
  map element (selectItems L doc).

(** The overlay boxes made for a list of items whose first index is [k]. *)
Fixpoint overlaysFrom (k : nat) (items : list Candidate) : list Node :=
  match items with
  | [] => []
  | item :: items' =>
      map (createContainer k) (rects item) ++ overlaysFrom (S k) items'
  end.

Fixpoint tagFrom (k : nat) (items : list Candidate) (doc : Document) : Document :=
  match items with
  | [] => doc
  | item :: items' =>
      tagFrom (S k) items' (setAttribute (element item) elementIndexAttr (pretty k) doc)
  end.

Definition appendChildren (parent : Element) (cs : list Node) (doc : Document) : Document :=
  updateAt (withChildren (fun l => l ++ cs)) doc parent.

(** [a] is reached from [b] by following [parentElement] at least once. *)
Inductive ancestor (a : Element) : Element → Prop :=
| ancestor_parent b : parentElement b = Some a → ancestor a b
| ancestor_step b p : parentElement b = Some p → ancestor a p → ancestor a b.

(** What a node holds of its own: everything but the nodes below it. *)
Definition own (n : Node) : string * gmap string string * CssText * string :=
  (tagName n, attributes n, style n, textContent n).

Definition attributeOf (doc : Document) (e : Element) (name : string) : option string :=
  match nodeAt doc e with
  | Some n => getAttribute n name
  | None => None
  end.

(** The order that [compareItems] sorts by: shallower first, and at equal
    depth the larger area first. *)
Definition ranksBefore (a b : Candidate) : Prop :=
  depth a < depth b ∨ (depth a = depth b ∧ (area b <= area a)%Q).

(** Two items that the comparator cannot tell apart. *)
Definition sameKeys (a b : Candidate) : Prop :=
  depth a = depth b ∧ (area a == area b)%Q.

Definition sameKeysb (a b : Candidate) : bool :=
  (depth a =? depth b) && Qeq_bool (area a) (area b).


(** Where the label sits against its box: its top edge is counted from the
    top edge of the box, the box is [rect_height] tall and the label
    [labelHeight]. *)
Definition labelBelow (bbox : Rect) (labelTop : Q) : Prop :=
  (rect_height bbox <= labelTop)%Q.

Definition labelAbove (labelTop : Q) : Prop :=
  (labelTop + labelHeight <= 0)%Q.

Definition styleOf (n : Node) (property : string) : option CssValue :=
  snd <$> List.find (fun d => String.eqb (fst d) property) (style n).

(** How the node that a reference denotes changes under an update: what it
    shows apart from its attributes, and how many children it has. *)
Definition face (n : Node) : string * CssText * string :=
  (tagName n, style n, textContent n).

Definition arity (n : Node) : nat := length (children n).

(** [n'] is [n] with its attributes passed through [g] when [hit]. *)
Definition retagged (g : gmap string string → gmap string string)
    (hit : bool) (n n' : Node) : Prop :=
  face n' = face n ∧ arity n' = arity n ∧
  attributes n' = (if hit then g (attributes n) else attributes n).

(** [n'] is [n] with [extra] more children when [hit]. *)
Definition grown (extra : nat) (hit : bool) (n n' : Node) : Prop :=
  own n' = own n ∧ arity n' = arity n + (if hit then extra else 0).

(** * Properties *)

(** ** Comparisons on rationals *)

Lemma Qlt_bool_iff (a b : Q) : Qlt_bool a b = true ↔ (a < b)%Q.
Proof.
  unfold Qlt_bool. rewrite negb_true_iff.
  split.
  - intros H. apply Qnot_le_lt. intros Hle.
    apply Qle_bool_iff in Hle. congruence.
  - intros H. destruct (Qle_bool b a) eqn:E; [|reflexivity].
    apply Qle_bool_iff in E. exfalso. eapply Qlt_not_le; eassumption.
Qed.

Lemma Qlt_bool_false (a b : Q) : Qlt_bool a b = false ↔ (b <= a)%Q.
Proof.
  unfold Qlt_bool. rewrite negb_false_iff. apply Qle_bool_iff.
Qed.

(** ** Lists *)

Lemma elem_of_List_filter {A} (f : A → bool) (l : list A) (x : A) :
  x ∈ List.filter f l ↔ x ∈ l ∧ f x = true.
Proof. rewrite !list_elem_of_In. apply filter_In. Qed.

Lemma List_filter_sublist {A} (f : A → bool) (l : list A) :
  List.filter f l `sublist_of` l.
Proof.
  induction l as [|x l IH]; simpl; [constructor|].
  destruct (f x); by constructor.
Qed.

Lemma omap_fmap_sublist {A B} (f : A → option B) (g : B → A) (l : list A) :
  (∀ x y, f x = Some y → g y = x) →
  g <$> omap f l `sublist_of` l.
Proof.
  intros Hg. induction l as [|x l IH]; simpl; [constructor|].
  destruct (f x) as [y|] eqn:E; simpl.
  - rewrite (Hg _ _ E). by constructor.
  - by constructor.
Qed.

Lemma imap_index {A} (l : list A) : imap (fun index _ => index) l = seq 0 (length l).
Proof.
  rewrite (imap_seq_0 l (fun index => index)). apply list_fmap_id.
Qed.

(** ** Element references *)

Lemma Element_eqb_eq (a b : Element) : Element_eqb a b = true ↔ a = b.
Proof. unfold Element_eqb. apply bool_decide_eq_true. Qed.

Lemma contains_prefix (a b : Element) :
  contains a b = true ↔ ∃ rest, b = a ++ rest.
Proof.
  revert b. induction a as [|i a IH]; intros b; simpl.
  - split; eauto.
  - destruct b as [|j b].
    + split; [discriminate|]. intros [rest H]. discriminate.
    + rewrite andb_true_iff, Nat.eqb_eq, IH. split.
      * intros [-> [rest ->]]. eauto.
      * intros [rest H]. injection H as -> ->. eauto.
Qed.

Lemma contains_refl (a : Element) : contains a a = true.
Proof. apply contains_prefix. exists []. by rewrite app_nil_r. Qed.

Lemma removelast_snoc {A} (l : list A) (x : A) : removelast (l ++ [x]) = l.
Proof. apply removelast_last. Qed.

Lemma parentElement_snoc (p : Element) (i : nat) :
  parentElement (p ++ [i]) = match p with [] => None | _ => Some p end.
Proof. unfold parentElement. rewrite removelast_snoc. by destruct p. Qed.

Lemma list_snoc_case {A} (l : list A) : l = [] ∨ ∃ l' x, l = l' ++ [x].
Proof. destruct l as [|y l _] using rev_ind; eauto. Qed.

Lemma parentElement_Some (e p : Element) :
  parentElement e = Some p ↔ p ≠ [] ∧ ∃ i, e = p ++ [i].
Proof.
  destruct (list_snoc_case e) as [-> | [e' [i ->]]].
  - split; [discriminate|]. intros [_ [i H]]. by destruct p.
  - rewrite parentElement_snoc. split.
    + destruct e'; [discriminate|]. intros [= <-]. eauto.
    + intros [Hp [j H]]. apply app_inj_tail in H as [-> ->].
      by destruct p.
Qed.

Lemma getDepth_loop_length (current : Element) (depth : nat) :
  getDepth_loop current depth = depth + (length current - 1).
Proof.
  funelim (getDepth_loop current depth).
  - pose proof (proj1 (parentElement_Some _ _) Hparent) as [Hp [i Hi]].
    rewrite H, Hi, length_app. simpl. destruct parent; [done|]. simpl. lia.
  - pose proof e as Hnone.
    destruct (list_snoc_case current) as [Hc | [e' [i Hc]]];
      rewrite Hc in Hnone |- *; [simpl; lia|].
    rewrite parentElement_snoc in Hnone. destruct e'; [|discriminate]. simpl. lia.
Qed.

Lemma getDepth_length (e : Element) : getDepth e = length e - 1.
Proof. unfold getDepth. by rewrite getDepth_loop_length. Qed.

(** ** The tree of elements *)

Lemma Node_forall_ind (P : Node → Prop) :
  (∀ tag attrs st txt cs, Forall P cs → P (mkNode tag attrs st txt cs)) →
  ∀ n, P n.
Proof.
  intros Hnode. fix IH 1. intros [tag attrs st txt cs].
  apply Hnode. induction cs as [|c cs IHcs]; constructor; [apply IH | exact IHcs].
Qed.

Lemma subtree_unfold (n : Node) : subtree n = [] :: forestFrom (children n) 0.
Proof. destruct n. reflexivity. Qed.

Lemma nodeAt_cons (cs : list Node) (i : nat) (rest : Element) :
  nodeAt cs (i :: rest) =
  cs !! i ≫= fun n => match rest with [] => Some n | _ => nodeAt (children n) rest end.
Proof. simpl. by destruct (cs !! i). Qed.

Lemma nodeAt_nil (e : Element) : nodeAt [] e = None.
Proof. by destruct e. Qed.

Lemma nodeAt_app (cs : list Node) (b rest : Element) :
  b ≠ [] → rest ≠ [] →
  nodeAt cs (b ++ rest) = nodeAt cs b ≫= fun n => nodeAt (children n) rest.
Proof.
  revert cs. induction b as [|i b IH]; intros cs Hb Hrest; [done|].
  rewrite <- app_comm_cons, !nodeAt_cons.
  destruct (cs !! i) as [n|]; simpl; [|done].
  destruct b as [|j b]; simpl.
  - by destruct rest.
  - apply (IH (children n)); done.
Qed.

Lemma elem_of_forestFrom (cs : list Node) (i : nat) (e : Element) :
  e ∈ forestFrom cs i ↔
  ∃ j n rest, e = (i + j) :: rest ∧ cs !! j = Some n ∧ rest ∈ subtree n.
Proof.
  revert i. induction cs as [|c cs IH]; intros i; simpl.
  - rewrite elem_of_nil. split; [done|]. intros (j & n & rest & _ & H & _).
    by rewrite lookup_nil in H.
  - rewrite elem_of_app, list_elem_of_fmap, IH. split.
    + intros [(rest & -> & Hrest) | (j & n & rest & -> & Hj & Hrest)].
      * exists 0, c, rest. by rewrite Nat.add_0_r.
      * exists (S j), n, rest. split_and!; [f_equal; lia | done | done].
    + intros (j & n & rest & -> & Hj & Hrest). destruct j as [|j]; simpl in Hj.
      * injection Hj as ->. left. exists rest. by rewrite Nat.add_0_r.
      * right. exists j, n, rest. split_and!; [f_equal; lia | done | done].
Qed.

(** [querySelectorAll("*")] lists the references that denote an element. *)
Lemma elem_of_querySelectorAll_star (doc : Document) (e : Element) :
  e ∈ querySelectorAll_star doc ↔ is_Some (nodeAt doc e).
Proof.
  unfold querySelectorAll_star. revert doc.
  induction e as [|i rest IH]; intros doc.
  - rewrite elem_of_forestFrom. split.
    + intros (j & n & r & H & _). discriminate.
    + intros [n Hn]. discriminate.
  - rewrite elem_of_forestFrom, nodeAt_cons. split.
    + intros (j & n & r & Heq & Hj & Hr). simpl in Heq.
      injection Heq as -> ->. rewrite Hj. simpl.
      rewrite subtree_unfold in Hr. apply elem_of_cons in Hr as [-> | Hr]; [eauto|].
      apply IH in Hr. destruct r; [by destruct Hr | done].
    + destruct (doc !! i) as [n|] eqn:Hi; simpl; [|by intros [? ?]].
      intros Hsome. exists i, n, rest. split_and!; [done | done |].
      rewrite subtree_unfold. destruct rest as [|k rest]; [left|].
      right. by apply IH.
Qed.

Lemma NoDup_forestFrom_of (cs : list Node) (i : nat) :
  Forall (fun n => NoDup (subtree n)) cs → NoDup (forestFrom cs i).
Proof.
  intros Hcs. revert i. induction Hcs as [|c cs Hc Hcs IH]; intros i; simpl.
  - constructor.
  - apply NoDup_app. split_and!.
    + apply NoDup_fmap_2; [|done]. by intros ?? [=].
    + intros e (r & -> & _)%list_elem_of_fmap (j & n & rest & Heq & _)%elem_of_forestFrom.
      injection Heq as Heq _. lia.
    + apply IH.
Qed.

Lemma NoDup_subtree (n : Node) : NoDup (subtree n).
Proof.
  induction n as [tag attrs st txt cs IH] using Node_forall_ind.
  rewrite subtree_unfold. simpl. constructor.
  - intros (j & m & rest & Heq & _)%elem_of_forestFrom. discriminate.
  - by apply NoDup_forestFrom_of.
Qed.

Lemma NoDup_querySelectorAll_star (doc : Document) : NoDup (querySelectorAll_star doc).
Proof.
  apply NoDup_forestFrom_of, Forall_forall. intros n _. apply NoDup_subtree.
Qed.

Lemma elem_of_querySelectorAll_attr (name : string) (doc : Document) (e : Element) :
  e ∈ querySelectorAll_attr name doc ↔
  ∃ n, nodeAt doc e = Some n ∧ is_Some (attributes n !! name).
Proof.
  unfold querySelectorAll_attr, elementHasAttribute, hasAttribute.
  rewrite elem_of_List_filter, elem_of_querySelectorAll_star. split.
  - intros [[n Hn] H]. rewrite Hn in H. apply bool_decide_eq_true in H. eauto.
  - intros (n & Hn & H). rewrite Hn. split; [eauto|]. by apply bool_decide_eq_true.
Qed.


(** ** Updates in place *)

Lemma updateAt_cons (f : Node → Node) (cs : list Node) (i : nat) (rest : Element) :
  updateAt f cs (i :: rest) =
  alter (match rest with
         | [] => f
         | _ => withChildren (fun l => updateAt f l rest)
         end) i cs.
Proof. by destruct rest. Qed.

Lemma length_updateAt (f : Node → Node) (cs : list Node) (e : Element) :
  length (updateAt f cs e) = length cs.
Proof. destruct e as [|i rest]; [done|]. rewrite updateAt_cons. apply length_alter. Qed.

Lemma nodeAt_updateAt_eq (f : Node → Node) (cs : list Node) (b : Element) :
  nodeAt (updateAt f cs b) b = f <$> nodeAt cs b.
Proof.
  revert cs. induction b as [|i rest IH]; intros cs; [done|].
  rewrite updateAt_cons, !nodeAt_cons, list_lookup_alter_eq.
  destruct (cs !! i) as [n|]; simpl; [|done].
  destruct rest as [|j rest]; [done|]. apply (IH (children n)).
Qed.

Lemma retagged_refl g (n : Node) : retagged g false n n.
Proof. by repeat split. Qed.

Lemma grown_refl extra (n : Node) : grown extra false n n.
Proof. split; [done|]. lia. Qed.

Lemma option_Forall2_same {A} (R : A → A → Prop) (o : option A) :
  (∀ x, R x x) → option_Forall2 R o o.
Proof. intros H. destruct o; constructor; done. Qed.

Lemma nodeAt_withAttributes g (cs : list Node) (e e' : Element) :
  option_Forall2 (retagged g (bool_decide (e' = e)))
    (nodeAt cs e') (nodeAt (updateAt (withAttributes g) cs e) e').
Proof.
  revert cs e'. induction e as [|i re IH]; intros cs e'.
  - simpl. destruct e' as [|j re']; [constructor|].
    rewrite bool_decide_eq_false_2 by done.
    apply option_Forall2_same, retagged_refl.
  - destruct e' as [|j re']; [constructor|].
    rewrite updateAt_cons, !nodeAt_cons.
    destruct (decide (i = j)) as [<-|Hij].
    + rewrite list_lookup_alter_eq.
      destruct (cs !! i) as [n|]; simpl; [|constructor].
      destruct re as [|k re].
      * destruct re' as [|k' re']; simpl.
        -- rewrite bool_decide_eq_true_2 by done. constructor. by repeat split.
        -- rewrite bool_decide_eq_false_2 by done.
           apply option_Forall2_same, retagged_refl.
      * destruct re' as [|k' re']; simpl.
        -- rewrite bool_decide_eq_false_2 by done. constructor.
           repeat split. unfold arity. simpl.
           apply (length_updateAt _ _ (k :: re)).
        -- rewrite (bool_decide_ext _ (k' :: re' = k :: re)) by naive_solver.
           apply (IH (children n) (k' :: re')).
    + rewrite list_lookup_alter_ne by done.
      rewrite bool_decide_eq_false_2 by congruence.
      apply option_Forall2_same, retagged_refl.
Qed.

Lemma nodeAt_setAttribute (doc : Document) (e e' : Element) (k v : string) :
  option_Forall2 (retagged (insert k v) (bool_decide (e' = e)))
    (nodeAt doc e') (nodeAt (setAttribute e k v doc) e').
Proof. apply nodeAt_withAttributes. Qed.

Lemma nodeAt_removeAttribute (doc : Document) (e e' : Element) (k : string) :
  option_Forall2 (retagged (delete k) (bool_decide (e' = e)))
    (nodeAt doc e') (nodeAt (removeAttribute e k doc) e').
Proof. apply nodeAt_withAttributes. Qed.

Lemma is_Some_setAttribute (doc : Document) (e e' : Element) (k v : string) :
  is_Some (nodeAt (setAttribute e k v doc) e') ↔ is_Some (nodeAt doc e').
Proof.
  destruct (nodeAt_setAttribute doc e e' k v); split; intros [? ?]; eauto; done.
Qed.

(** Appending under [b] leaves the elements that were there as they were,
    but for the number of children of [b]. *)
Lemma nodeAt_appendChildren_old (cs ov : list Node) (b e' : Element) (n : Node) :
  nodeAt cs e' = Some n →
  ∃ n', nodeAt (appendChildren b ov cs) e' = Some n' ∧
        grown (length ov) (bool_decide (e' = b)) n n'.
Proof.
  unfold appendChildren. revert cs e'. induction b as [|i rb IH]; intros cs e' Hn.
  - simpl. exists n. split; [done|]. destruct e'; [done|].
    rewrite bool_decide_eq_false_2 by done. apply grown_refl.
  - destruct e' as [|j re']; [done|].
    rewrite updateAt_cons, nodeAt_cons. rewrite nodeAt_cons in Hn.
    destruct (decide (i = j)) as [<-|Hij].
    + rewrite list_lookup_alter_eq.
      destruct (cs !! i) as [m|]; simpl in *; [|done].
      destruct rb as [|k rb].
      * destruct re' as [|k' re']; simpl.
        -- injection Hn as ->. eexists. split; [done|].
           rewrite bool_decide_eq_true_2 by done.
           split; [done|]. unfold arity. simpl. by rewrite length_app.
        -- rewrite bool_decide_eq_false_2 by done.
           exists n. split; [|apply grown_refl].
           rewrite <- Hn. rewrite !nodeAt_cons.
           assert (is_Some (children m !! k')) as [c Hc].
           { rewrite nodeAt_cons in Hn. destruct (children m !! k'); eauto; done. }
           by rewrite (lookup_app_l_Some _ _ _ _ Hc), Hc.
      * destruct re' as [|k' re']; cbn -[updateAt].
        -- injection Hn as ->. eexists. split; [done|].
           rewrite bool_decide_eq_false_2 by done.
           split; [done|]. unfold arity. cbn [withChildren children].
           rewrite length_updateAt. lia.
        -- rewrite (bool_decide_ext _ (k' :: re' = k :: rb)) by naive_solver.
           apply (IH (children m) (k' :: re') Hn).
    + rewrite list_lookup_alter_ne by done.
      rewrite bool_decide_eq_false_2 by congruence.
      exists n. split; [|apply grown_refl]. by rewrite <- Hn.
Qed.

Lemma nodeAt_appendChildren_body (cs ov : list Node) (b : Element) :
  nodeAt (appendChildren b ov cs) b =
  withChildren (fun l => l ++ ov) <$> nodeAt cs b.
Proof. apply nodeAt_updateAt_eq. Qed.

(** The elements that appending under [b] brings in are those of the
    appended nodes, below [b] and after the children it had. *)
Lemma nodeAt_appendChildren_new (cs ov : list Node) (b e' : Element) (n' : Node) :
  nodeAt cs e' = None →
  nodeAt (appendChildren b ov cs) e' = Some n' →
  ∃ nb j rest, nodeAt cs b = Some nb ∧ e' = b ++ (arity nb + j) :: rest ∧
               nodeAt ov (j :: rest) = Some n'.
Proof.
  unfold appendChildren. revert cs e'. induction b as [|i rb IH]; intros cs e' Hnone Hn'.
  - simpl in Hn'. congruence.
  - destruct e' as [|j re']; [done|].
    rewrite updateAt_cons, nodeAt_cons in Hn'. rewrite nodeAt_cons in Hnone.
    destruct (decide (i = j)) as [<-|Hij].
    + rewrite list_lookup_alter_eq in Hn'.
      destruct (cs !! i) as [m|] eqn:Hm; cbn -[nodeAt updateAt] in *; [|done].
      destruct rb as [|k rb].
      * destruct re' as [|k' re']; [done|]. cbn -[nodeAt updateAt] in Hn', Hnone.
        rewrite nodeAt_cons in Hnone, Hn'.
        destruct (decide (k' < length (children m))) as [Hlt|Hge].
        -- apply lookup_lt_is_Some_2 in Hlt as [c Hc].
           rewrite (lookup_app_l_Some _ _ _ _ Hc) in Hn'. rewrite Hc in Hnone.
           cbn -[nodeAt updateAt] in *. congruence.
        -- rewrite lookup_app_r in Hn' by lia.
           exists m, (k' - length (children m)), re'. split_and!.
           ++ by rewrite nodeAt_cons, Hm.
           ++ simpl. unfold arity. do 2 f_equal. lia.
           ++ by rewrite nodeAt_cons.
      * destruct re' as [|k' re']; [done|]. cbn -[nodeAt updateAt] in Hn', Hnone.
        destruct (IH (children m) (k' :: re') Hnone Hn') as (nb & j & rest & Hb & Heq & Hov).
        exists nb, j, rest. split_and!; [|by rewrite Heq|done].
        by rewrite nodeAt_cons, Hm.
    + rewrite list_lookup_alter_ne in Hn' by done. congruence.
Qed.

Lemma nodeAt_appendChildren_at (cs ov : list Node) (b : Element) (nb : Node)
    (j : nat) (rest : Element) :
  nodeAt cs b = Some nb →
  nodeAt (appendChildren b ov cs) (b ++ (arity nb + j) :: rest) = nodeAt ov (j :: rest).
Proof.
  intros Hb. assert (b ≠ []) by (by destruct b).
  rewrite nodeAt_app by done. rewrite nodeAt_appendChildren_body, Hb.
  cbn -[nodeAt]. rewrite !nodeAt_cons. unfold arity. rewrite lookup_app_r by lia.
  by replace (length (children nb) + j - length (children nb)) with j by lia.
Qed.

Lemma updateAt_ext (f g : Node → Node) (cs : list Node) (e : Element) :
  (∀ n, f n = g n) → updateAt f cs e = updateAt g cs e.
Proof.
  intros Hfg. revert cs. induction e as [|i rest IH]; intros cs; [done|].
  rewrite !updateAt_cons. apply list_alter_ext; [|done].
  intros n _. destruct rest; [done|]. unfold withChildren. by rewrite IH.
Qed.

Lemma updateAt_id (f : Node → Node) (cs : list Node) (e : Element) :
  (∀ n, f n = n) → updateAt f cs e = cs.
Proof.
  intros Hf. revert cs. induction e as [|i rest IH]; intros cs; [done|].
  rewrite updateAt_cons. apply list_alter_id.
  intros n. destruct rest; [done|]. unfold withChildren. rewrite IH. by destruct n.
Qed.

Lemma updateAt_updateAt (f g : Node → Node) (cs : list Node) (e : Element) :
  updateAt g (updateAt f cs e) e = updateAt (g ∘ f) cs e.
Proof.
  revert cs. induction e as [|i rest IH]; intros cs; [done|].
  rewrite !updateAt_cons, list_alter_alter_eq. apply list_alter_ext; [|done].
  intros n _. destruct rest; [done|]. unfold withChildren, compose. cbn -[updateAt].
  by rewrite IH.
Qed.

Lemma appendChildren_nil (b : Element) (cs : list Node) : appendChildren b [] cs = cs.
Proof.
  apply updateAt_id. intros [tag attrs st txt l]. unfold withChildren. simpl.
  by rewrite app_nil_r.
Qed.

Lemma appendChildren_appendChildren (b : Element) (ov1 ov2 cs : list Node) :
  appendChildren b ov2 (appendChildren b ov1 cs) = appendChildren b (ov1 ++ ov2) cs.
Proof.
  unfold appendChildren. rewrite updateAt_updateAt. apply updateAt_ext.
  intros n. unfold withChildren, compose. simpl. by rewrite app_assoc.
Qed.

Lemma updateAt_app_l (f : Node → Node) (l ov : list Node) (e : Element) :
  is_Some (nodeAt l e) → updateAt f (l ++ ov) e = updateAt f l e ++ ov.
Proof.
  destruct e as [|i rest]; [by intros [? ?]|].
  rewrite !updateAt_cons, nodeAt_cons. intros Hs.
  apply alter_app_l. destruct (l !! i) eqn:E; [by eapply lookup_lt_Some|].
  by destruct Hs.
Qed.

(** Writing an attribute on an element that is there and appending under
    [b] can be done in either order. *)
Lemma withAttributes_appendChildren g (cs ov : list Node) (e b : Element) :
  is_Some (nodeAt cs e) →
  updateAt (withAttributes g) (appendChildren b ov cs) e =
  appendChildren b ov (updateAt (withAttributes g) cs e).
Proof.
  unfold appendChildren. revert cs b.
  induction e as [|i re IH]; intros cs b Hs; [done|].
  destruct b as [|j rb]; [done|].
  rewrite !updateAt_cons. rewrite nodeAt_cons in Hs.
  destruct (decide (i = j)) as [<-|Hij]; [|by apply list_alter_alter_ne].
  rewrite !list_alter_alter_eq. apply list_alter_ext; [|done].
  intros n Hn. rewrite Hn in Hs. cbn -[nodeAt] in Hs. unfold compose.
  destruct re as [|k re], rb as [|k' rb]; try done.
  - unfold withChildren. cbn -[updateAt]. f_equal.
    by apply updateAt_app_l.
  - unfold withChildren. cbn -[updateAt]. f_equal.
    by apply (IH (children n) (k' :: rb)).
Qed.

Lemma setAttribute_appendChildren (doc ov : list Node) (e b : Element) (k v : string) :
  is_Some (nodeAt doc e) →
  setAttribute e k v (appendChildren b ov doc) =
  appendChildren b ov (setAttribute e k v doc).
Proof. apply withAttributes_appendChildren. Qed.

(** ** document.body *)

Lemma findIndex_isBodyTag (l l' : list Node) :
  tagName <$> l = tagName <$> l' →
  findIndex isBodyTag l = findIndex isBodyTag l'.
Proof.
  revert l'. induction l as [|x l IH]; intros [|y l'] Heq; try done.
  simpl in Heq. injection Heq as Hxy Heq. simpl. rewrite (IH l' Heq).
  unfold isBodyTag. by rewrite Hxy.
Qed.

Lemma body_ext (doc doc' : Document) :
  (∀ e, length e ≤ 2 → tagName <$> nodeAt doc' e = tagName <$> nodeAt doc e) →
  body doc' = body doc.
Proof.
  intros H. pose proof (H [0] ltac:(simpl; lia)) as H0.
  destruct doc as [|html rest], doc' as [|html' rest']; try done.
  simpl in H0. injection H0 as H0. unfold body. rewrite H0.
  rewrite (findIndex_isBodyTag (children html') (children html)); [done|].
  apply list_eq. intros i. rewrite !list_lookup_fmap.
  pose proof (H [0; i] ltac:(simpl; lia)) as Hi. simpl in Hi.
  by destruct (children html' !! i), (children html !! i).
Qed.

Lemma body_length (doc : Document) (b : Element) : body doc = Some b → length b = 2.
Proof.
  unfold body. destruct doc as [|html rest]; [done|].
  destruct (bool_decide _); [|done].
  destruct (findIndex _ _); [|done]. by intros [= <-].
Qed.

Lemma body_setAttribute (doc : Document) (e : Element) (k v : string) :
  body (setAttribute e k v doc) = body doc.
Proof.
  apply body_ext. intros e' _.
  destruct (nodeAt_setAttribute doc e e' k v) as [n n' (Hface & _)|]; [|done].
  simpl. unfold face in Hface. congruence.
Qed.

Lemma body_appendChildren (doc ov : list Node) (b : Element) :
  body doc = Some b → body (appendChildren b ov doc) = Some b.
Proof.
  intros Hb. rewrite <- Hb. apply body_ext. intros e' Hlen.
  destruct (nodeAt doc e') as [n|] eqn:Hn.
  - destruct (nodeAt_appendChildren_old doc ov b e' n Hn) as (n' & -> & Hown & _).
    simpl. unfold own in Hown. congruence.
  - destruct (nodeAt (appendChildren b ov doc) e') as [n'|] eqn:Hn'; [|done].
    destruct (nodeAt_appendChildren_new doc ov b e' n' Hn Hn')
      as (nb & j & rest & _ & -> & _).
    apply body_length in Hb. rewrite length_app in Hlen. simpl in Hlen. lia.
Qed.

Lemma body_is_Some (doc : Document) (b : Element) :
  body doc = Some b → is_Some (nodeAt doc b).
Proof.
  unfold body. destruct doc as [|html rest]; [done|].
  destruct (bool_decide _); [|done].
  destruct (findIndex isBodyTag (children html)) as [i|] eqn:Hi; [|done].
  intros [= <-]. simpl.
  assert (is_Some (children html !! i)) as [c ->]; [|eauto].
  clear -Hi. revert i Hi. induction (children html) as [|x l IH]; intros i; [done|].
  simpl. destruct (isBodyTag x); [intros [= <-]; eauto|].
  destruct (findIndex isBodyTag l) as [k|]; [|done].
  intros [= <-]. simpl. by apply IH.
Qed.

(** ** The sort *)

Section sort.
Context {A : Type} (cmp : A → A → Q) (R : A → A → Prop).
Hypothesis cmp_R : ∀ a b, Qle_bool (cmp a b) 0 = true ↔ R a b.
Hypothesis R_total : ∀ a b, R a b ∨ R b a.
Hypothesis R_trans : ∀ a b c, R a b → R b c → R a c.

Lemma insertItem_Permutation (x : A) (l : list A) : insertItem cmp x l ≡ₚ x :: l.
Proof.
  induction l as [|y l IH]; simpl; [done|].
  destruct (Qle_bool (cmp x y) 0); [done|].
  rewrite IH. apply Permutation_swap.
Qed.

Lemma sort_Permutation (l : list A) : sort cmp l ≡ₚ l.
Proof.
  induction l as [|x l IH]; simpl; [done|].
  by rewrite insertItem_Permutation, IH.
Qed.

Lemma length_sort (l : list A) : length (sort cmp l) = length l.
Proof. apply Permutation_length, sort_Permutation. Qed.

Lemma insertItem_sorted (x : A) (l : list A) :
  StronglySorted R l → StronglySorted R (insertItem cmp x l).
Proof using cmp_R R_total R_trans.
  induction 1 as [|y l Hl IH Hy]; simpl.
  - repeat constructor.
  - destruct (Qle_bool (cmp x y) 0) eqn:E.
    + apply cmp_R in E. constructor; [by constructor|].
      constructor; [done|]. eapply Forall_impl; [exact Hy|].
      intros z Hz. by eapply R_trans.
    + constructor; [done|].
      rewrite insertItem_Permutation. constructor; [|done].
      destruct (R_total x y) as [Hxy|Hyx]; [|done].
      apply cmp_R in Hxy. congruence.
Qed.

Lemma sort_sorted (l : list A) : StronglySorted R (sort cmp l).
Proof using cmp_R R_total R_trans.
  induction l as [|x l IH]; simpl; [constructor|]. by apply insertItem_sorted.
Qed.

(** Stability: among the items of a class that the comparator does not
    order, the sort changes nothing. *)
Lemma filter_insertItem (P : A → bool) (x : A) (l : list A) :
  (∀ a b, P a = true → P b = true → Qle_bool (cmp a b) 0 = true) →
  List.filter P (insertItem cmp x l) =
  if P x then x :: List.filter P l else List.filter P l.
Proof.
  intros HP. induction l as [|y l IH]; simpl; [done|].
  destruct (Qle_bool (cmp x y) 0) eqn:E; simpl; [done|].
  rewrite IH. destruct (P x) eqn:Hx, (P y) eqn:Hy; try done.
  rewrite (HP x y Hx Hy) in E. done.
Qed.

Lemma filter_sort (P : A → bool) (l : list A) :
  (∀ a b, P a = true → P b = true → Qle_bool (cmp a b) 0 = true) →
  List.filter P (sort cmp l) = List.filter P l.
Proof.
  intros HP. induction l as [|x l IH]; simpl; [done|].
  rewrite filter_insertItem by done. by rewrite IH.
Qed.
End sort.

Lemma compareItems_le (a b : Candidate) :
  Qle_bool (compareItems a b) 0 = true ↔ ranksBefore a b.
Proof.
  rewrite Qle_bool_iff. unfold compareItems, ranksBefore.
  destruct (depth a =? depth b) eqn:E; simpl.
  - apply Nat.eqb_eq in E. split.
    + intros H. right. split; [done|].
      apply Qplus_le_l with (z := (- area a)%Q).
      rewrite Qplus_opp_r. exact H.
    + intros [Hlt | [_ H]]; [lia|].
      apply Qplus_le_l with (z := (- area a)%Q) in H.
      by rewrite Qplus_opp_r in H.
  - apply Nat.eqb_neq in E. change 0%Q with (inject_Z 0). rewrite <- Zle_Qle.
    split; [intros H; left; lia | intros [H | [H _]]; lia].
Qed.

Lemma ranksBefore_total (a b : Candidate) : ranksBefore a b ∨ ranksBefore b a.
Proof.
  unfold ranksBefore.
  destruct (lt_eq_lt_dec (depth a) (depth b)) as [[H|H]|H]; [by left; left| |by right; left].
  destruct (Qlt_le_dec (area a) (area b)) as [Hq|Hq].
  - right. right. split; [done|]. by apply Qlt_le_weak.
  - left. by right.
Qed.

Lemma ranksBefore_trans (a b c : Candidate) :
  ranksBefore a b → ranksBefore b c → ranksBefore a c.
Proof.
  unfold ranksBefore. intros [H1 | [H1 Q1]] [H2 | [H2 Q2]]; try (left; lia).
  right. split; [lia|]. by eapply Qle_trans.
Qed.

Lemma sortItems_sorted (items : list Candidate) :
  StronglySorted ranksBefore (sort compareItems items).
Proof.
  eapply sort_sorted;
    eauto using compareItems_le, ranksBefore_total, ranksBefore_trans.
Qed.

Lemma sameKeysb_iff (a b : Candidate) : sameKeysb a b = true ↔ sameKeys a b.
Proof.
  unfold sameKeysb, sameKeys.
  by rewrite andb_true_iff, Nat.eqb_eq, Qeq_bool_iff.
Qed.

Lemma sameKeys_compareItems (k a b : Candidate) :
  sameKeysb k a = true → sameKeysb k b = true →
  Qle_bool (compareItems a b) 0 = true.
Proof.
  rewrite !sameKeysb_iff. intros [Hda Ha] [Hdb Hb].
  apply compareItems_le. right. split; [congruence|].
  rewrite <- Ha, <- Hb. apply Qle_refl.
Qed.

Lemma prioritize_subset (items : list Candidate) (c : Candidate) :
  c ∈ prioritize items → c ∈ items.
Proof.
  unfold prioritize. destruct (MAX_ELEMENTS <? length items); [|done].
  intros Hc. rewrite <- (sort_Permutation compareItems items).
  eapply elem_of_sublist; [exact Hc|apply sublist_take].
Qed.

Lemma length_prioritize (items : list Candidate) :
  length (prioritize items) ≤ MAX_ELEMENTS.
Proof.
  unfold prioritize. destruct (MAX_ELEMENTS <? length items) eqn:E.
  - rewrite length_take. lia.
  - apply Nat.ltb_ge in E. done.
Qed.

Lemma NoDup_prioritize (items : list Candidate) :
  NoDup (element <$> items) → NoDup (element <$> prioritize items).
Proof.
  unfold prioritize. destruct (MAX_ELEMENTS <? length items); [|done].
  intros Hnd. eapply sublist_NoDup; [|apply fmap_sublist, sublist_take].
  by rewrite (sort_Permutation compareItems items).
Qed.

(** ** Scan and selection *)

Lemma scanElement_Some (L : Layout) (doc : Document) (e : Element) (c : Candidate) :
  scanElement L doc e = Some c ↔
  (∃ n, nodeAt doc e = Some n ∧ isInteractive n = true) ∧
  visibleRects L e ≠ [] ∧
  (MIN_AREA <= totalArea (visibleRects L e))%Q ∧
  c = {| element := e; rects := visibleRects L e;
         area := totalArea (visibleRects L e); depth := getDepth e |}.
Proof.
  unfold scanElement. destruct (nodeAt doc e) as [n|]; cycle 1.
  { split; [done|]. by intros ((n & Hn & _) & _). }
  destruct (isInteractive n) eqn:Hi; cbn [negb]; cycle 1.
  { split; [done|]. intros ((n' & [= <-] & Hn') & _). congruence. }
  destruct (visibleRects L e) as [|r rs] eqn:Hr; cbn [length Nat.eqb].
  { split; [done|]. by intros (_ & Hne & _). }
  destruct (Qlt_bool (totalArea (r :: rs)) MIN_AREA) eqn:Ha.
  - apply Qlt_bool_iff in Ha. split; [done|].
    intros (_ & _ & Hle & _). exfalso. by eapply Qlt_not_le.
  - apply Qlt_bool_false in Ha. split.
    + intros [= <-]. split_and!; eauto.
    + by intros (_ & _ & _ & ->).
Qed.

Lemma scanElement_element (L : Layout) (doc : Document) (e : Element) (c : Candidate) :
  scanElement L doc e = Some c → element c = e.
Proof. intros (_ & _ & _ & ->)%scanElement_Some. done. Qed.

Lemma elem_of_scanPage (L : Layout) (doc : Document) (c : Candidate) :
  c ∈ scanPage L doc ↔ scanElement L doc (element c) = Some c.
Proof.
  unfold scanPage. rewrite list_elem_of_omap. split.
  - intros (e & _ & Hc). by rewrite (scanElement_element _ _ _ _ Hc).
  - intros Hc. exists (element c). split; [|done].
    apply elem_of_querySelectorAll_star.
    apply scanElement_Some in Hc as ((n & -> & _) & _). eauto.
Qed.

Lemma scanPage_sublist (L : Layout) (doc : Document) :
  element <$> scanPage L doc `sublist_of` querySelectorAll_star doc.
Proof. apply omap_fmap_sublist. intros e c. apply scanElement_element. Qed.

Lemma elem_of_removeNested (items : list Candidate) (x : Candidate) :
  x ∈ removeNested items ↔
  x ∈ items ∧
  ∀ y, y ∈ items → contains (element y) (element x) = true → element x = element y.
Proof.
  unfold removeNested, nestedIn. rewrite elem_of_List_filter, negb_true_iff.
  apply and_iff_compat_l. split.
  - intros Hnone y Hy Hc.
    destruct (decide (element x = element y)) as [|Hne]; [done|].
    assert (existsb (fun y => contains (element y) (element x)
                              && negb (Element_eqb (element x) (element y))) items = true)
      as Hex; [|congruence].
    apply existsb_exists. exists y. rewrite <- list_elem_of_In. split; [done|].
    rewrite Hc. simpl. apply negb_true_iff.
    destruct (Element_eqb _ _) eqn:E; [|done]. by apply Element_eqb_eq in E.
  - intros H. apply not_true_is_false. intros Hex.
    apply existsb_exists in Hex as (y & Hy & Hc).
    rewrite <- list_elem_of_In in Hy.
    apply andb_true_iff in Hc as [Hc Hne]. apply negb_true_iff in Hne.
    rewrite (proj2 (Element_eqb_eq _ _) (H y Hy Hc)) in Hne. done.
Qed.

Lemma removeNested_sublist (items : list Candidate) :
  removeNested items `sublist_of` items.
Proof. apply List_filter_sublist. Qed.

Lemma selectItems_removeNested (L : Layout) (doc : Document) (c : Candidate) :
  c ∈ selectItems L doc → c ∈ removeNested (scanPage L doc).
Proof. apply prioritize_subset. Qed.

Lemma selectItems_scanPage (L : Layout) (doc : Document) (c : Candidate) :
  c ∈ selectItems L doc → c ∈ scanPage L doc.
Proof.
  intros Hc%selectItems_removeNested. by apply elem_of_removeNested in Hc as [? _].
Qed.

Lemma selectItems_scanElement (L : Layout) (doc : Document) (c : Candidate) :
  c ∈ selectItems L doc → scanElement L doc (element c) = Some c.
Proof. intros Hc%selectItems_scanPage. by apply elem_of_scanPage. Qed.

Lemma selectItems_is_Some (L : Layout) (doc : Document) (c : Candidate) :
  c ∈ selectItems L doc → is_Some (nodeAt doc (element c)).
Proof.
  intros Hc%selectItems_scanElement.
  apply scanElement_Some in Hc as ((n & -> & _) & _). eauto.
Qed.

Lemma NoDup_taggedElements (L : Layout) (doc : Document) :
  NoDup (taggedElements L doc).
Proof.
  apply NoDup_prioritize.
  eapply sublist_NoDup; [apply NoDup_querySelectorAll_star|].
  etransitivity; [|apply scanPage_sublist].
  apply fmap_sublist, removeNested_sublist.
Qed.

Lemma length_selectItems (L : Layout) (doc : Document) :
  length (selectItems L doc) ≤ MAX_ELEMENTS.
Proof. apply length_prioritize. Qed.

(** ** The annotation pass *)

Lemma JS_bind_Normal {A B} (m : JS A) (k : A → JS B) (doc doc' : Document) (a : A) :
  m doc = (Normal a, doc') → (m ≫= k) doc = k a doc'.
Proof. intros H. unfold mbind, JS_bind. by rewrite H. Qed.

Lemma forEach_bodyAppendChild (index k : nat) (bboxes : list Rect)
    (doc : Document) (b : Element) :
  body doc = Some b →
  forEach (fun bbox _ => bodyAppendChild (createContainer index bbox)) bboxes k doc =
  (Normal tt, appendChildren b (createContainer index <$> bboxes) doc).
Proof.
  revert k doc. induction bboxes as [|bbox bboxes IH]; intros k doc Hb; simpl.
  - by rewrite appendChildren_nil.
  - erewrite JS_bind_Normal; [|unfold bodyAppendChild; by rewrite Hb].
    change (appendChild b ?c doc) with (appendChildren b [c] doc).
    rewrite IH by (by apply body_appendChildren).
    by rewrite appendChildren_appendChildren.
Qed.

Lemma forEach_annotate (items : list Candidate) (k : nat)
    (doc ov : list Node) (b : Element) :
  body doc = Some b →
  Forall (fun item => is_Some (nodeAt doc (element item))) items →
  forEach annotate items k (appendChildren b ov doc) =
  (Normal tt, appendChildren b (ov ++ overlaysFrom k items) (tagFrom k items doc)).
Proof.
  intros Hb Hvalid. revert k doc ov Hb Hvalid.
  induction items as [|item items IH]; intros k doc ov Hb Hvalid; simpl.
  - by rewrite app_nil_r.
  - apply Forall_cons in Hvalid as [Hitem Hvalid].
    erewrite JS_bind_Normal; cycle 1.
    { unfold annotate. erewrite JS_bind_Normal; [|reflexivity].
      rewrite setAttribute_appendChildren by done.
      apply forEach_bodyAppendChild.
      by rewrite body_appendChildren; [|rewrite body_setAttribute]. }
    rewrite appendChildren_appendChildren.
    rewrite IH; [by rewrite app_assoc|by rewrite body_setAttribute|].
    eapply Forall_impl; [exact Hvalid|]. intros c Hc. by apply is_Some_setAttribute.
Qed.

(** What [markPage] does on a page that has a body: it returns the indices
    and leaves the page with the selected elements tagged and the overlay
    boxes appended to the body. *)
Lemma markPage_run (L : Layout) (doc : Document) (b : Element) :
  body doc = Some b →
  markPage L doc =
  (Normal (seq 0 (length (selectItems L doc))),
   appendChildren b (overlaysFrom 0 (selectItems L doc))
     (tagFrom 0 (selectItems L doc) doc)).
Proof.
  intros Hb. unfold markPage. destruct doc as [|html rest] eqn:Hdoc; [done|].
  rewrite <- Hdoc in *. clear Hdoc.
  erewrite JS_bind_Normal; cycle 1.
  { rewrite <- (appendChildren_nil b doc) at 2.
    apply forEach_annotate; [done|].
    apply Forall_forall. intros c. apply selectItems_is_Some. }
  simpl. unfold mret, JS_ret. by rewrite imap_index.
Qed.

(** ** The page after the annotation pass *)

Lemma nodeAt_tagFrom_frame (items : list Candidate) (k : nat) (doc : Document)
    (e' : Element) :
  option_Forall2
    (fun n n' => face n' = face n ∧ arity n' = arity n ∧
                 (e' ∉ element <$> items → attributes n' = attributes n))
    (nodeAt doc e') (nodeAt (tagFrom k items doc) e').
Proof.
  revert k doc. induction items as [|item items IH]; intros k doc; simpl.
  - apply option_Forall2_same. intros n. by split_and!.
  - specialize (IH (S k) (setAttribute (element item) elementIndexAttr (pretty k) doc)).
    destruct (nodeAt_setAttribute doc (element item) e' elementIndexAttr (pretty k))
      as [n n1 (Hf1 & Ha1 & Hat1)|]; [|inversion IH; constructor].
    inversion IH as [? n' (Hf & Ha & Hat)|]; subst. constructor.
    split_and!; [congruence|congruence|].
    intros Hnot. apply not_elem_of_cons in Hnot as [Hne Hnot].
    rewrite (Hat Hnot), Hat1. by rewrite bool_decide_eq_false_2.
Qed.

Lemma nodeAt_tagFrom_tagged (items : list Candidate) (k i : nat) (doc : Document)
    (item : Candidate) (n : Node) :
  NoDup (element <$> items) →
  items !! i = Some item →
  nodeAt doc (element item) = Some n →
  ∃ n', nodeAt (tagFrom k items doc) (element item) = Some n' ∧
        attributes n' = <[elementIndexAttr := pretty (k + i)]> (attributes n).
Proof.
  revert k i doc n. induction items as [|c items IH]; intros k i doc n Hnd Hi Hn; [done|].
  simpl in Hnd. apply NoDup_cons in Hnd as [Hc Hnd]. simpl.
  pose proof (nodeAt_setAttribute doc (element c) (element item)
                elementIndexAttr (pretty k)) as H1.
  rewrite Hn in H1. inversion H1 as [? n1 (Hf1 & Ha1 & Hat1) Heq Hn1|]; subst.
  symmetry in Hn1. destruct i as [|i]; simpl in Hi.
  - injection Hi as ->. rewrite bool_decide_eq_true_2 in Hat1 by done.
    pose proof (nodeAt_tagFrom_frame items (S k)
                  (setAttribute (element item) elementIndexAttr (pretty k) doc)
                  (element item)) as H2.
    rewrite Hn1 in H2. inversion H2 as [? n' (_ & _ & Hat)|]; subst.
    exists n'. split; [done|]. rewrite (Hat Hc), Hat1. by rewrite Nat.add_0_r.
  - assert (element item ≠ element c) as Hne.
    { intros Heq. apply Hc. rewrite <- Heq.
      apply list_elem_of_fmap. exists item. split; [done|].
      by eapply list_elem_of_lookup_2. }
    rewrite bool_decide_eq_false_2 in Hat1 by done.
    destruct (IH (S k) i _ n1 Hnd Hi Hn1) as (n' & Hn' & Hat).
    exists n'. split; [done|]. rewrite Hat, Hat1. do 2 f_equal. lia.
Qed.

Lemma nodeAt_tagFrom_None (items : list Candidate) (k : nat) (doc : Document)
    (e' : Element) :
  nodeAt doc e' = None → nodeAt (tagFrom k items doc) e' = None.
Proof.
  intros Hn. pose proof (nodeAt_tagFrom_frame items k doc e') as H.
  rewrite Hn in H. by inversion H.
Qed.

Lemma body_tagFrom (items : list Candidate) (k : nat) (doc : Document) :
  body (tagFrom k items doc) = body doc.
Proof.
  revert k doc. induction items as [|c items IH]; intros k doc; simpl; [done|].
  by rewrite IH, body_setAttribute.
Qed.

(** The overlay boxes: one per rectangle, each with its label. *)
Lemma elem_of_overlaysFrom (items : list Candidate) (k : nat) (c : Node) :
  c ∈ overlaysFrom k items ↔
  ∃ i item bbox, items !! i = Some item ∧ bbox ∈ rects item ∧
                 c = createContainer (k + i) bbox.
Proof.
  revert k. induction items as [|item items IH]; intros k; simpl.
  - rewrite elem_of_nil. split; [done|]. by intros (i & it & bbox & Hi & _).
  - rewrite elem_of_app, list_elem_of_fmap, IH. split.
    + intros [(bbox & -> & Hb) | (i & it & bbox & Hi & Hb & ->)].
      * exists 0, item, bbox. by rewrite Nat.add_0_r.
      * exists (S i), it, bbox. split_and!; [done|done|]. f_equal. lia.
    + intros (i & it & bbox & Hi & Hb & ->). destruct i as [|i]; simpl in Hi.
      * injection Hi as ->. left. exists bbox. by rewrite Nat.add_0_r.
      * right. exists i, it, bbox. split_and!; [done|done|]. f_equal. lia.
Qed.

Lemma length_overlaysFrom (items : list Candidate) (k : nat) :
  length (overlaysFrom k items) = sum_list (length ∘ rects <$> items).
Proof.
  revert k. induction items as [|item items IH]; intros k; simpl; [done|].
  by rewrite length_app, length_fmap, IH.
Qed.

Lemma nodeAt_overlays (ov : list Node) (e : Element) (n : Node) :
  Forall (fun c => ∃ i bbox, c = createContainer i bbox) ov →
  nodeAt ov e = Some n →
  ∃ i bbox, n = createContainer i bbox ∨ n = createLabel i bbox.
Proof.
  intros Hov. destruct e as [|j rest]; [done|]. rewrite nodeAt_cons.
  destruct (ov !! j) as [c|] eqn:Hj; [|done]. simpl.
  destruct (proj1 (Forall_forall _ _) Hov c) as (i & bbox & ->).
  { by eapply list_elem_of_lookup_2. }
  destruct rest as [|k rest]; [intros [= <-]; eauto|].
  simpl. destruct k as [|k]; simpl; [|done].
  destruct rest as [|k' rest]; [intros [= <-]; eauto|]. done.
Qed.

Lemma overlay_attributes (i : nat) (bbox : Rect) (n : Node) :
  n = createContainer i bbox ∨ n = createLabel i bbox →
  attributes n !! elementIndexAttr = None.
Proof. by intros [-> | ->]. Qed.

Lemma nodeAt_marked_old (L : Layout) (doc : Document) (b e : Element) (n : Node) :
  body doc = Some b →
  nodeAt doc e = Some n →
  ∃ n', nodeAt (snd (markPage L doc)) e = Some n' ∧
        face n' = face n ∧
        arity n' = arity n + (if bool_decide (e = b)
                              then length (overlaysFrom 0 (selectItems L doc)) else 0) ∧
        (e ∉ taggedElements L doc → attributes n' = attributes n) ∧
        (∀ i item, selectItems L doc !! i = Some item → element item = e →
                   attributes n' = <[elementIndexAttr := pretty i]> (attributes n)).
Proof.
  intros Hb Hn. rewrite (markPage_run L doc b Hb). cbn [snd].
  set (items := selectItems L doc).
  pose proof (nodeAt_tagFrom_frame items 0 doc e) as Hframe.
  rewrite Hn in Hframe. inversion Hframe as [? nD (Hf & Ha & Hat) Heq HnD|]; subst.
  symmetry in HnD.
  destruct (nodeAt_appendChildren_old _ (overlaysFrom 0 items) b e nD HnD)
    as (n' & Hn' & Hown & Har).
  exists n'. unfold own in Hown. injection Hown as Htag Hattrs Hstyle Htext.
  split_and!; [done| |lia| |].
  - unfold face in *. congruence.
  - intros Hnot. rewrite Hattrs. by apply Hat.
  - intros i item Hi <-.
    destruct (nodeAt_tagFrom_tagged items 0 i doc item n) as (nD' & HnD' & Hat');
      [apply NoDup_taggedElements|done|done|].
    rewrite HnD in HnD'. injection HnD' as <-. by rewrite Hattrs, Hat'.
Qed.

Lemma nodeAt_marked_new (L : Layout) (doc : Document) (b e : Element) (n' : Node) :
  body doc = Some b →
  nodeAt doc e = None →
  nodeAt (snd (markPage L doc)) e = Some n' →
  ∃ nb j rest, nodeAt doc b = Some nb ∧ e = b ++ (arity nb + j) :: rest ∧
               nodeAt (overlaysFrom 0 (selectItems L doc)) (j :: rest) = Some n'.
Proof.
  intros Hb Hn. rewrite (markPage_run L doc b Hb). cbn [snd]. intros Hn'.
  set (items := selectItems L doc) in *.
  apply (nodeAt_tagFrom_None items 0) in Hn.
  destruct (nodeAt_appendChildren_new _ _ _ _ _ Hn Hn')
    as (nD & j & rest & HnD & -> & Hov).
  destruct (body_is_Some doc b Hb) as [nb Hnb].
  pose proof (nodeAt_tagFrom_frame items 0 doc b) as Hframe.
  rewrite Hnb, HnD in Hframe. inversion Hframe as [?? (_ & Ha & _)|]; subst.
  exists nb, j, rest. by rewrite <- Ha.
Qed.

Lemma overlays_are_containers (k : nat) (items : list Candidate) :
  Forall (fun c => ∃ i bbox, c = createContainer i bbox) (overlaysFrom k items).
Proof.
  apply Forall_forall. intros c (i & item & bbox & _ & _ & ->)%elem_of_overlaysFrom.
  eauto.
Qed.

(** The index attribute after [markPage], element by element. *)
Lemma attributeOf_marked_tagged (L : Layout) (doc : Document) (b : Element)
    (i : nat) (item : Candidate) :
  body doc = Some b →
  selectItems L doc !! i = Some item →
  attributeOf (snd (markPage L doc)) (element item) elementIndexAttr = Some (pretty i).
Proof.
  intros Hb Hi.
  destruct (selectItems_is_Some L doc item) as [n Hn]; [by eapply list_elem_of_lookup_2|].
  destruct (nodeAt_marked_old L doc b _ n Hb Hn) as (n' & Hn' & _ & _ & _ & Hat).
  unfold attributeOf, getAttribute. rewrite Hn', (Hat i item Hi eq_refl).
  apply lookup_insert_eq.
Qed.

Lemma attributeOf_marked_other (L : Layout) (doc : Document) (b e : Element) :
  body doc = Some b →
  e ∉ taggedElements L doc →
  attributeOf (snd (markPage L doc)) e elementIndexAttr = attributeOf doc e elementIndexAttr.
Proof.
  intros Hb Hnot. unfold attributeOf, getAttribute.
  destruct (nodeAt doc e) as [n|] eqn:Hn.
  - destruct (nodeAt_marked_old L doc b e n Hb Hn) as (n' & -> & _ & _ & Hat & _).
    by rewrite Hat.
  - destruct (nodeAt (snd (markPage L doc)) e) as [n'|] eqn:Hn'; [|done].
    destruct (nodeAt_marked_new L doc b e n' Hb Hn Hn') as (nb & j & rest & _ & _ & Hov).
    destruct (nodeAt_overlays _ _ _ (overlays_are_containers _ _) Hov) as (i & bbox & H).
    by eapply overlay_attributes.
Qed.

Lemma attributeOf_None_iff (doc : Document) (name : string) (e : Element) :
  e ∉ querySelectorAll_attr name doc ↔ attributeOf doc e name = None.
Proof.
  rewrite elem_of_querySelectorAll_attr. unfold attributeOf, getAttribute.
  destruct (nodeAt doc e) as [n|].
  - split.
    + intros H. apply eq_None_not_Some. intros Hs. apply H. eauto.
    + intros H (n' & [= <-] & Hs). rewrite H in Hs. by destruct Hs.
  - split; [done|]. by intros _ (n' & ? & _).
Qed.

Lemma elem_of_taggedElements (L : Layout) (doc : Document) (e : Element) :
  e ∈ taggedElements L doc ↔
  ∃ i item, selectItems L doc !! i = Some item ∧ element item = e.
Proof.
  unfold taggedElements. rewrite list_elem_of_fmap. split.
  - intros (item & -> & (i & Hi)%list_elem_of_lookup). eauto.
  - intros (i & item & Hi & <-). exists item. split; [done|].
    by eapply list_elem_of_lookup_2.
Qed.

(** ** The clean-up scripts *)

Lemma removeFrom_unfold (name : string) (n : Node) :
  removeFrom name n =
  {| tagName := tagName n; attributes := attributes n; style := style n;
     textContent := textContent n; children := removeAll name (children n) |}.
Proof.
  destruct n as [tag attrs st txt cs]. simpl. f_equal.
  induction cs as [|c cs IH]; simpl; [done|]. by rewrite IH.
Qed.

Lemma removeAll_lookup (name : string) (cs : list Node) (i : nat) (m : Node) :
  removeAll name cs !! i = Some m →
  ∃ c, c ∈ cs ∧ hasAttribute c name = false ∧ m = removeFrom name c.
Proof.
  revert i. induction cs as [|c cs IH]; intros i; simpl; [done|].
  destruct (hasAttribute c name) eqn:Hc.
  - intros (c' & Hin & H)%IH. exists c'. split; [by right|done].
  - destruct i as [|i]; simpl.
    + intros [= <-]. exists c. split; [by left|done].
    + intros (c' & Hin & H)%IH. exists c'. split; [by right|done].
Qed.

Lemma removeAll_forest (name : string) (cs : list Node) :
  Forall (fun c => ∀ e m, nodeAt (removeAll name (children c)) e = Some m →
                          hasAttribute m name = false) cs →
  ∀ e m, nodeAt (removeAll name cs) e = Some m → hasAttribute m name = false.
Proof.
  intros Hcs e m. destruct e as [|i rest]; [done|]. rewrite nodeAt_cons.
  destruct (removeAll name cs !! i) as [m0|] eqn:Hi; [|done].
  apply removeAll_lookup in Hi as (c & Hin & Hc & ->). cbn -[nodeAt].
  destruct rest as [|j rest].
  - intros [= <-]. by rewrite removeFrom_unfold.
  - rewrite removeFrom_unfold. cbn -[nodeAt].
    by apply (proj1 (Forall_forall _ _) Hcs c Hin).
Qed.

Lemma removeAll_below (name : string) (n : Node) (e : Element) (m : Node) :
  nodeAt (removeAll name (children n)) e = Some m → hasAttribute m name = false.
Proof.
  revert e m. induction n as [tag attrs st txt cs IH] using Node_forall_ind.
  simpl. by apply removeAll_forest.
Qed.

(** After the first pass of [clearRectsAndTags] no element carries the
    attribute that the pass looks for. *)
Lemma removeAll_none (name : string) (doc : Document) :
  querySelectorAll_attr name (removeAll name doc) = [].
Proof.
  apply elem_of_nil_inv. intros e (m & Hm & Hs)%elem_of_querySelectorAll_attr.
  assert (hasAttribute m name = false) as Hno.
  { eapply removeAll_forest; [|exact Hm].
    apply Forall_forall. intros c _ e' m'. apply removeAll_below. }
  unfold hasAttribute in Hno. by apply bool_decide_eq_false in Hno.
Qed.

Lemma nodeAt_removeAttributes (removed : string) (els : list Element)
    (doc : Document) (e' : Element) :
  option_Forall2
    (fun n n' => face n' = face n ∧ arity n' = arity n ∧
                 attributes n' = if bool_decide (e' ∈ els)
                                 then delete removed (attributes n)
                                 else attributes n)
    (nodeAt doc e')
    (nodeAt (fold_left (fun d el => removeAttribute el removed d) els doc) e').
Proof.
  revert doc. induction els as [|el els IH]; intros doc; cbn [fold_left].
  - apply option_Forall2_same. intros n.
    rewrite bool_decide_eq_false_2; [done|apply not_elem_of_nil].
  - specialize (IH (removeAttribute el removed doc)).
    destruct (nodeAt_removeAttribute doc el e' removed)
      as [n n1 (Hf1 & Ha1 & Hat1)|]; [|inversion IH; constructor].
    inversion IH as [? n' (Hf & Ha & Hat)|]; subst. constructor.
    split_and!; [congruence|congruence|]. rewrite Hat, Hat1.
    destruct (decide (e' = el)) as [->|Hne].
    + rewrite (bool_decide_eq_true_2 (el = el)) by done.
      rewrite (bool_decide_eq_true_2 (el ∈ el :: els)) by left.
      destruct (bool_decide (el ∈ els)); [|done]. by rewrite delete_delete_eq.
    + rewrite (bool_decide_eq_false_2 (e' = el)) by done.
      rewrite (bool_decide_ext (e' ∈ el :: els) (e' ∈ els)); [done|].
      rewrite elem_of_cons. split; [by intros [?|?]|by right].
Qed.

Lemma removeAttributeFromAll_lookup (selected removed name : string) (doc : Document)
    (e : Element) :
  name ≠ removed →
  attributeOf (removeAttributeFromAll selected removed doc) e name = attributeOf doc e name.
Proof.
  intros Hne. unfold attributeOf, removeAttributeFromAll, getAttribute.
  destruct (nodeAt_removeAttributes removed (querySelectorAll_attr selected doc) doc e)
    as [n n' (_ & _ & Hat)|]; [|done].
  rewrite Hat. destruct (bool_decide _); [|done]. by rewrite lookup_delete_ne.
Qed.

(** What holds of the round trip on every page: after [clearRectsAndTags]
    no element carries the rectangle-index attribute. *)
Lemma clearRectsAndTags_removes_overlays (doc : Document) :
  querySelectorAll_attr rectIndexAttr (clearRectsAndTags doc) = [].
Proof.
  apply elem_of_nil_inv. intros e He.
  assert (attributeOf (clearRectsAndTags doc) e rectIndexAttr ≠ None) as Hsome.
  { intros Hnone. by apply attributeOf_None_iff in Hnone. }
  apply Hsome. unfold clearRectsAndTags.
  rewrite removeAttributeFromAll_lookup by done.
  apply attributeOf_None_iff. rewrite removeAll_none. apply not_elem_of_nil.
Qed.

(** On a page where no element has an attribute of the misspelt name, the
    second pass of [clearRectsAndTags] changes nothing. *)
Lemma clearRectsAndTags_second_pass_idle (doc : Document) :
  querySelectorAll_attr "date-voyager-element-index"
    (removeAll rectIndexAttr doc) = [] →
  clearRectsAndTags doc = removeAll rectIndexAttr doc.
Proof.
  unfold clearRectsAndTags, removeAttributeFromAll, rectIndexAttr.
  by intros ->.
Qed.

(** [clearElements] leaves no element with the index attribute. *)
Lemma clearElements_removes_indices (doc : Document) :
  querySelectorAll_attr elementIndexAttr (clearElements doc) = [].
Proof.
  apply elem_of_nil_inv. intros e He.
  assert (attributeOf (clearElements doc) e elementIndexAttr ≠ None) as Hsome.
  { intros Hnone. by apply attributeOf_None_iff in Hnone. }
  apply Hsome. clear Hsome He.
  unfold clearElements, removeAttributeFromAll, attributeOf, getAttribute,
    elementIndexAttr.
  pose proof (nodeAt_removeAttributes "data-voyager-element-index"
                (querySelectorAll_attr "data-voyager-element-index" doc) doc e) as H.
  inversion H as [n n' (_ & _ & Hat) Hn Hn'|Hn Hn']; [|done].
  rewrite Hat. destruct (bool_decide _) eqn:Hin.
  - apply lookup_delete_eq.
  - apply bool_decide_eq_false in Hin. apply attributeOf_None_iff in Hin.
    unfold attributeOf, getAttribute in Hin. by rewrite <- Hn in Hin.
Qed.

(** *** [markPage] followed by [clearRectsAndTags] *)

Lemma removeAll_app (name : string) (l k : list Node) :
  removeAll name (l ++ k) = removeAll name l ++ removeAll name k.
Proof.
  induction l as [|c l IH]; simpl; [done|].
  destruct (hasAttribute c name); by rewrite IH.
Qed.

Lemma removeAll_all (name : string) (l : list Node) :
  Forall (fun c => hasAttribute c name = true) l → removeAll name l = [].
Proof. induction 1 as [|c l Hc _ IH]; simpl; [done|]. by rewrite Hc. Qed.

Lemma free_children (name : string) (cs : list Node) (i : nat) (c : Node) :
  (∀ e n, nodeAt cs e = Some n → hasAttribute n name = false) →
  cs !! i = Some c →
  hasAttribute c name = false ∧
  ∀ e n, nodeAt (children c) e = Some n → hasAttribute n name = false.
Proof.
  intros Hfree Hi. split.
  - apply (Hfree [i]). by rewrite nodeAt_cons, Hi.
  - intros e n Hn. destruct e as [|j rest]; [done|].
    apply (Hfree (i :: j :: rest)). by rewrite nodeAt_cons, Hi.
Qed.

Lemma free_tail (name : string) (c : Node) (cs : list Node) :
  (∀ e n, nodeAt (c :: cs) e = Some n → hasAttribute n name = false) →
  ∀ e n, nodeAt cs e = Some n → hasAttribute n name = false.
Proof.
  intros Hfree e n Hn. destruct e as [|i rest]; [done|].
  apply (Hfree (S i :: rest)). by rewrite nodeAt_cons in *.
Qed.

(** Taking out the elements with an attribute that no element has changes
    nothing. *)
Lemma removeAll_free_forest (name : string) (cs : list Node) :
  Forall (fun c => (∀ e n, nodeAt (children c) e = Some n →
                           hasAttribute n name = false) →
                   removeAll name (children c) = children c) cs →
  (∀ e n, nodeAt cs e = Some n → hasAttribute n name = false) →
  removeAll name cs = cs.
Proof.
  induction 1 as [|c cs Hc _ IH]; intros Hfree; simpl; [done|].
  destruct (free_children name (c :: cs) 0 c Hfree eq_refl) as [Hno Hbelow].
  rewrite Hno, (IH (free_tail _ _ _ Hfree)). f_equal.
  rewrite removeFrom_unfold, (Hc Hbelow). by destruct c.
Qed.

Lemma removeAll_free (name : string) (cs : list Node) :
  (∀ e n, nodeAt cs e = Some n → hasAttribute n name = false) →
  removeAll name cs = cs.
Proof.
  apply removeAll_free_forest, Forall_forall. intros c _. clear cs.
  induction c as [tag attrs st txt cs IH] using Node_forall_ind.
  simpl. by apply removeAll_free_forest.
Qed.

Lemma removeAll_alter (name : string) (G : Node → Node) (cs : list Node) (i : nat) :
  (∀ e n, nodeAt cs e = Some n → hasAttribute n name = false) →
  (∀ c, cs !! i = Some c →
        hasAttribute (G c) name = false ∧ removeFrom name (G c) = c) →
  removeAll name (alter G i cs) = cs.
Proof.
  revert i. induction cs as [|c cs IH]; intros i Hfree HG; [done|].
  destruct i as [|i]; simpl.
  - destruct (HG c eq_refl) as [-> ->].
    by rewrite (removeAll_free name cs (free_tail _ _ _ Hfree)).
  - destruct (free_children name (c :: cs) 0 c Hfree eq_refl) as [Hno Hbelow].
    pose proof (IH i (free_tail _ _ _ Hfree) (fun c' => HG c')) as Hrest.
    rewrite Hno. unfold alter in Hrest. rewrite Hrest.
    f_equal. rewrite removeFrom_unfold, (removeAll_free _ _ Hbelow). by destruct c.
Qed.

(** Taking out the overlay boxes that were appended under [b] gives back
    the page as it was before they were appended. *)
Lemma removeAll_appendChildren (name : string) (cs ov : list Node) (b : Element) :
  (∀ e n, nodeAt cs e = Some n → hasAttribute n name = false) →
  Forall (fun c => hasAttribute c name = true) ov →
  removeAll name (appendChildren b ov cs) = cs.
Proof.
  intros Hfree Hov. unfold appendChildren. revert cs Hfree.
  induction b as [|i rb IH]; intros cs Hfree; [by apply removeAll_free|].
  rewrite updateAt_cons. apply removeAll_alter; [done|].
  intros c Hc. destruct (free_children name cs i c Hfree Hc) as [Hno Hbelow].
  destruct rb as [|j rb].
  - split; [done|]. rewrite removeFrom_unfold. cbn [withChildren children tagName
      attributes style textContent].
    rewrite removeAll_app, (removeAll_free _ _ Hbelow), (removeAll_all _ _ Hov).
    rewrite app_nil_r. by destruct c.
  - split; [done|]. rewrite removeFrom_unfold. cbn [withChildren children tagName
      attributes style textContent].
    rewrite (IH (children c) Hbelow). by destruct c.
Qed.

Lemma attributeOf_tagFrom_other (items : list Candidate) (k : nat) (doc : Document)
    (e : Element) (name : string) :
  name ≠ elementIndexAttr →
  attributeOf (tagFrom k items doc) e name = attributeOf doc e name.
Proof.
  intros Hne. revert k doc. induction items as [|item items IH]; intros k doc; [done|].
  simpl. rewrite IH. unfold attributeOf, getAttribute.
  destruct (nodeAt_setAttribute doc (element item) e elementIndexAttr (pretty k))
    as [n n' (_ & _ & Hat)|]; [|done].
  rewrite Hat. destruct (bool_decide _); [|done]. by rewrite lookup_insert_ne.
Qed.

Lemma attribute_free (name : string) (doc : Document) :
  querySelectorAll_attr name doc = [] ↔
  ∀ e n, nodeAt doc e = Some n → hasAttribute n name = false.
Proof.
  split.
  - intros Hnone e n Hn. unfold hasAttribute. apply bool_decide_eq_false. intros Hs.
    assert (e ∈ querySelectorAll_attr name doc) as Hin
      by (apply elem_of_querySelectorAll_attr; eauto).
    rewrite Hnone in Hin. by apply not_elem_of_nil in Hin.
  - intros Hfree. apply elem_of_nil_inv.
    intros e (n & Hn & Hs)%elem_of_querySelectorAll_attr.
    specialize (Hfree e n Hn). unfold hasAttribute in Hfree.
    by apply bool_decide_eq_false in Hfree.
Qed.

Lemma attribute_free_tagFrom (name : string) (items : list Candidate) (k : nat)
    (doc : Document) :
  name ≠ elementIndexAttr →
  querySelectorAll_attr name doc = [] →
  querySelectorAll_attr name (tagFrom k items doc) = [].
Proof.
  intros Hne Hnone. apply elem_of_nil_inv. intros e He.
  assert (attributeOf (tagFrom k items doc) e name ≠ None) as Hsome.
  { intros H. by apply attributeOf_None_iff in H. }
  apply Hsome. rewrite attributeOf_tagFrom_other by done.
  apply attributeOf_None_iff. rewrite Hnone. apply not_elem_of_nil.
Qed.

(** On a page with a body that has no overlay box and no attribute of the
    misspelt name, [markPage] followed by [clearRectsAndTags] leaves the
    page as [markPage] tagged it: the boxes are gone and every index
    stays. *)
Lemma clearRectsAndTags_after_markPage (L : Layout) (doc : Document) (b : Element) :
  body doc = Some b →
  querySelectorAll_attr rectIndexAttr doc = [] →
  querySelectorAll_attr "date-voyager-element-index" doc = [] →
  clearRectsAndTags (snd (markPage L doc)) = tagFrom 0 (selectItems L doc) doc ∧
  ∀ i item, selectItems L doc !! i = Some item →
    attributeOf (clearRectsAndTags (snd (markPage L doc))) (element item)
                elementIndexAttr = Some (pretty i).
Proof.
  intros Hb Hrect Hdate.
  assert (clearRectsAndTags (snd (markPage L doc)) = tagFrom 0 (selectItems L doc) doc)
    as Heq.
  { rewrite (markPage_run L doc b Hb). cbn [snd].
    assert (removeAll rectIndexAttr
              (appendChildren b (overlaysFrom 0 (selectItems L doc))
                 (tagFrom 0 (selectItems L doc) doc))
            = tagFrom 0 (selectItems L doc) doc) as Hrm.
    { apply removeAll_appendChildren.
      - by apply attribute_free, attribute_free_tagFrom.
      - eapply Forall_impl; [apply overlays_are_containers|].
        by intros c (i & bbox & ->). }
    rewrite clearRectsAndTags_second_pass_idle; rewrite Hrm; [done|].
    by apply attribute_free_tagFrom. }
  split; [done|]. intros i item Hi. rewrite Heq.
  destruct (selectItems_is_Some L doc item) as [n Hn];
    [by eapply list_elem_of_lookup_2|].
  destruct (nodeAt_tagFrom_tagged (selectItems L doc) 0 i doc item n)
    as (n' & Hn' & Hat); [apply NoDup_taggedElements|done|done|].
  unfold attributeOf, getAttribute. rewrite Hn', Hat. apply lookup_insert_eq.
Qed.

(** ** Ancestors *)

Lemma ancestor_suffix (a b : Element) :
  ancestor a b ↔ a ≠ [] ∧ ∃ rest, rest ≠ [] ∧ b = a ++ rest.
Proof.
  split.
  - induction 1 as [b Hp | b p Hp _ (Ha & rest & Hrest & ->)].
    + apply parentElement_Some in Hp as (Ha & i & ->). split; [done|]. by exists [i].
    + apply parentElement_Some in Hp as (_ & i & ->). split; [done|].
      exists (rest ++ [i]). split; [by destruct rest|]. by rewrite app_assoc.
  - intros (Ha & rest & Hrest & ->).
    induction rest as [|i rest IH] using rev_ind; [done|].
    destruct rest as [|j rest].
    + apply ancestor_parent. simpl. rewrite parentElement_snoc. by destruct a.
    + apply ancestor_step with (p := a ++ j :: rest); [|by apply IH].
      rewrite app_assoc, parentElement_snoc. by destruct a.
Qed.

Lemma ancestor_contains (a b : Element) :
  ancestor a b ↔ a ≠ [] ∧ a ≠ b ∧ contains a b = true.
Proof.
  rewrite ancestor_suffix, contains_prefix. apply and_iff_compat_l. split.
  - intros (rest & Hrest & ->). split; [|eauto].
    intros Heq. apply Hrest. apply (app_inv_head a). by rewrite app_nil_r.
  - intros (Hne & rest & ->). exists rest. split; [|done].
    intros ->. by rewrite app_nil_r in Hne.
Qed.



(** ** The claims *)

(** C4.  Of two distinct elements that one call of [markPage] tags, neither
    is an ancestor of the other; and a candidate that passed the scan and
    lies below another candidate that passed the scan is not tagged. *)
Theorem tagged_elements_not_nested (L : Layout) (doc : Document) :
  (∀ x y, x ∈ taggedElements L doc → y ∈ taggedElements L doc → x ≠ y →
          ¬ ancestor x y ∧ ¬ ancestor y x) ∧
  (∀ c c', c ∈ scanPage L doc → c' ∈ scanPage L doc →
           ancestor (element c') (element c) →
           element c ∉ taggedElements L doc).
Proof.
  assert (∀ cx cy, cx ∈ selectItems L doc → cy ∈ scanPage L doc →
                   ¬ ancestor (element cy) (element cx)) as Hkey.
  { intros cx cy Hx Hy (_ & Hne & Hc)%ancestor_contains.
    apply selectItems_removeNested, elem_of_removeNested in Hx as [_ Hx].
    apply Hne. symmetry. by apply Hx. }
  split.
  - intros x y (cx & -> & Hx)%list_elem_of_fmap (cy & -> & Hy)%list_elem_of_fmap _.
    split; apply Hkey; auto using selectItems_scanPage.
  - intros c c' Hc Hc' Hanc (cx & Heq & Hx)%list_elem_of_fmap.
    apply (Hkey cx c' Hx Hc'). by rewrite <- Heq.
Qed.

(** C5.  One call of [markPage] tags at most 60 elements: the elements it
    writes an index on are at most 60, it returns at most 60 indices, and on
    a page with a body an element whose index attribute is not what it was
    before the call is one of those elements. *)
Theorem tagged_elements_at_most_60 (L : Layout) (doc : Document) :
  length (taggedElements L doc) ≤ 60 ∧
  length (selectItems L doc) ≤ 60 ∧
  (∀ indices doc', markPage L doc = (Normal indices, doc') →
                   length indices ≤ 60) ∧
  (∀ b e, body doc = Some b →
          attributeOf (snd (markPage L doc)) e elementIndexAttr
            ≠ attributeOf doc e elementIndexAttr →
          e ∈ taggedElements L doc).
Proof.
  pose proof (length_selectItems L doc) as Hlen. unfold MAX_ELEMENTS in Hlen.
  split_and!.
  - unfold taggedElements. by rewrite length_map.
  - done.
  - intros indices doc'. unfold markPage. destruct doc as [|html rest]; [done|].
    unfold mbind, JS_bind.
    destruct (forEach annotate _ 0 _) as [[[]|err] doc'']; [|done].
    cbn [mret JS_ret]. intros [= <- _]. by rewrite imap_index, length_seq.
  - intros b e Hb Hdiff.
    destruct (decide (e ∈ taggedElements L doc)) as [|Hnot]; [done|].
    destruct Hdiff. by eapply attributeOf_marked_other.
Qed.





(** C8.  For every rectangle that is drawn, the label is put below the box
    if the top of the rectangle is less than 20 from the top of the
    viewport, and above the box otherwise. *)
Theorem label_below_iff_near_top (L : Layout) (doc : Document) (i : nat)
    (item : Candidate) (bbox : Rect) :
  selectItems L doc !! i = Some item →
  bbox ∈ rects item →
  createContainer i bbox ∈ overlaysFrom 0 (selectItems L doc) ∧
  ∃ label,
    children (createContainer i bbox) = [label] ∧
    styleOf (createContainer i bbox) "top" = Some (px (rect_top bbox)) ∧
    styleOf (createContainer i bbox) "height" = Some (px (rect_height bbox)) ∧
    styleOf label "top" = Some (px (labelTop bbox)) ∧
    ((rect_top bbox < 20)%Q → labelTop bbox = (rect_height bbox + 2)%Q) ∧
    (¬ (rect_top bbox < 20)%Q → labelTop bbox = (- labelHeight)%Q) ∧
    (labelBelow bbox (labelTop bbox) ↔ (rect_top bbox < 20)%Q) ∧
    (labelAbove (labelTop bbox) ↔ ¬ (rect_top bbox < 20)%Q).
Proof.
  intros Hi Hbbox. split.
  { apply elem_of_overlaysFrom. exists i, item, bbox. by split_and!. }
  assert (0 < rect_height bbox)%Q as Hpos.
  { assert (item ∈ selectItems L doc) as Hitem by (by eapply list_elem_of_lookup_2).
    apply selectItems_scanElement, scanElement_Some in Hitem as (_ & _ & _ & Heq).
    rewrite Heq in Hbbox. cbn [rects element] in Hbbox. unfold visibleRects in Hbbox.
    apply elem_of_List_filter in Hbbox as [_ Hs]. unfold hasSize in Hs.
    apply andb_true_iff in Hs as [_ Hh]. by apply Qlt_bool_iff in Hh. }
  exists (createLabel i bbox). split_and!; try reflexivity.
  - intros Hlt. unfold labelTop. apply Qlt_bool_iff in Hlt.
    change labelHeight with 20%Q. by rewrite Hlt.
  - intros Hge. unfold labelTop.
    destruct (Qlt_bool (rect_top bbox) labelHeight) eqn:E; [|done].
    apply Qlt_bool_iff in E. done.
  - unfold labelBelow, labelTop.
    destruct (Qlt_bool (rect_top bbox) labelHeight) eqn:E.
    + apply Qlt_bool_iff in E. split; [done|]. intros _. lra.
    + apply Qlt_bool_false in E. unfold labelHeight in *. split; intros H; lra.
  - unfold labelAbove, labelTop.
    destruct (Qlt_bool (rect_top bbox) labelHeight) eqn:E.
    + apply Qlt_bool_iff in E. unfold labelHeight in *. split; intros H; [lra|done].
    + apply Qlt_bool_false in E. unfold labelHeight in *. split; intros H; lra.
Qed.

(** C3.  When more than 60 candidates are left, the selection is the first
    60 of the candidates sorted by depth, shallower first, and at equal
    depth by area, larger first; the sort is stable and its comparator reads
    the two keys only.  With all candidates at one depth, no candidate that
    is left out has more area than one that is selected. *)
Theorem prioritize_over_cap (items : list Candidate) :
  60 < length items →
  prioritize items = take 60 (sort compareItems items) ∧
  length (prioritize items) = 60 ∧
  sort compareItems items ≡ₚ items ∧
  StronglySorted ranksBefore (sort compareItems items) ∧
  (∀ k, List.filter (sameKeysb k) (sort compareItems items) =
        List.filter (sameKeysb k) items) ∧
  (∀ a b a' b', sameKeys a a' → sameKeys b b' →
                (compareItems a b == compareItems a' b')%Q) ∧
  ((∀ a b, a ∈ items → b ∈ items → depth a = depth b) →
   ∀ s d, s ∈ prioritize items → d ∈ drop 60 (sort compareItems items) →
          (area d <= area s)%Q).
Proof.
  intros Hlen.
  assert (prioritize items = take 60 (sort compareItems items)) as Hsel.
  { unfold prioritize, MAX_ELEMENTS.
    by rewrite (proj2 (Nat.ltb_lt 60 (length items)) Hlen). }
  split_and!.
  - done.
  - rewrite Hsel, length_take, length_sort. lia.
  - apply sort_Permutation.
  - apply sortItems_sorted.
  - intros k. apply filter_sort. apply sameKeys_compareItems.
  - intros a b a' b' [Hda Ha] [Hdb Hb]. unfold compareItems.
    rewrite Hda, Hdb. destruct (depth a' =? depth b'); simpl; [|done].
    by rewrite Ha, Hb.
  - intros Hdepth s d Hs Hd. rewrite Hsel in Hs.
    pose proof (sortItems_sorted items) as Hsorted.
    rewrite <- (take_drop 60 (sort compareItems items)) in Hsorted.
    pose proof (StronglySorted_app_1_elem_of _ _ _ s d Hsorted Hs Hd)
      as [Hlt | [_ Hle]]; [|done].
    assert (depth s = depth d); [|lia].
    apply Hdepth; rewrite <- (sort_Permutation compareItems items).
    + eapply elem_of_sublist; [exact Hs|apply sublist_take].
    + eapply elem_of_sublist; [exact Hd|apply sublist_drop].
Qed.



(** C1, at the page with one button: after [markPage] and then
    [clearRectsAndTags] the overlay box is gone but the button still carries
    its index, since the script looks for elements with an attribute named
    [date-voyager-element-index]; [clearElements], which looks for the name
    that [markPage] writes, does remove it. *)
Theorem clearRectsAndTags_leaves_index :
  let marked := snd (markPage oneButtonLayout oneButtonDoc) in
  fst (markPage oneButtonLayout oneButtonDoc) = Normal [0] ∧
  querySelectorAll_attr rectIndexAttr marked = [[0; 1; 1]] ∧
  querySelectorAll_attr elementIndexAttr marked = [[0; 1; 0]] ∧
  querySelectorAll_attr rectIndexAttr (clearRectsAndTags marked) = [] ∧
  querySelectorAll_attr elementIndexAttr (clearRectsAndTags marked) = [[0; 1; 0]] ∧
  attributeOf (clearRectsAndTags marked) [0; 1; 0] elementIndexAttr = Some "0" ∧
  querySelectorAll_attr elementIndexAttr (clearElements marked) = [].
Proof. vm_compute. by split_and!. Qed.

(** ** The claims at the sample pages *)

(** The candidate that the scan makes of an element. *)
Lemma scanned_candidate (L : Layout) (doc : Document) (e : Element) (c : Candidate) :
  scanElement L doc e = Some c → c ∈ scanPage L doc.
Proof.
  intros Hc. apply elem_of_scanPage. by rewrite (scanElement_element _ _ _ _ Hc).
Qed.



Lemma prioritize_over_cap_witness :
  60 < length (removeNested (scanPage gridLayout gridDoc)) ∧
  length (selectItems gridLayout gridDoc) = 60 ∧
  (∀ s d, s ∈ selectItems gridLayout gridDoc →
          d ∈ drop 60 (sort compareItems (removeNested (scanPage gridLayout gridDoc))) →
          (area d <= area s)%Q) ∧
  taggedElements gridLayout gridDoc = (fun i => [0; 1; i]) <$> rev (seq 40 60).
Proof.
  refine ((fun H => conj (proj1 H) (conj (proj1 (proj2 H))
            (conj (proj2 (proj2 H)) _))) _); [vm_compute; reflexivity|].
  assert (60 < length (removeNested (scanPage gridLayout gridDoc))) as Hlen
    by (vm_compute; lia).
  assert (Forall (fun c => depth c = 2) (removeNested (scanPage gridLayout gridDoc)))
    as Hdepth by (apply (bool_decide_unpack _); vm_compute; exact I).
  destruct (prioritize_over_cap _ Hlen) as (_ & Hsel & _ & _ & _ & _ & Harea).
  split; [exact Hlen|]. split; [exact Hsel|].
  apply Harea. intros a b Ha Hb.
  rewrite (proj1 (Forall_forall _ _) Hdepth a Ha).
  rewrite (proj1 (Forall_forall _ _) Hdepth b Hb). reflexivity.
Defined.

Lemma tagged_elements_not_nested_witness :
  (¬ ancestor [0; 1; 99] [0; 1; 98] ∧ ¬ ancestor [0; 1; 98] [0; 1; 99]) ∧
  [0; 1; 0; 0] ∉ taggedElements nestedLayout nestedDoc.
Proof.
  split.
  - apply (proj1 (tagged_elements_not_nested gridLayout gridDoc)).
    + apply (bool_decide_unpack _). vm_compute. exact I.
    + apply (bool_decide_unpack _). vm_compute. exact I.
    + discriminate.
  - destruct (scanElement nestedLayout nestedDoc [0; 1; 0; 0]) as [c|] eqn:Hc;
      [|vm_compute in Hc; discriminate].
    destruct (scanElement nestedLayout nestedDoc [0; 1; 0]) as [c'|] eqn:Hc';
      [|vm_compute in Hc'; discriminate].
    rewrite <- (scanElement_element _ _ _ _ Hc).
    apply (proj2 (tagged_elements_not_nested nestedLayout nestedDoc) c c').
    + exact (scanned_candidate _ _ _ _ Hc).
    + exact (scanned_candidate _ _ _ _ Hc').
    + rewrite (scanElement_element _ _ _ _ Hc), (scanElement_element _ _ _ _ Hc').
      apply ancestor_parent. reflexivity.
Defined.

Lemma tagged_elements_at_most_60_witness :
  length (taggedElements gridLayout gridDoc) ≤ 60 ∧ length [0] ≤ 60 ∧
  [0; 1; 0] ∈ taggedElements oneButtonLayout oneButtonDoc.
Proof.
  destruct (tagged_elements_at_most_60 oneButtonLayout oneButtonDoc)
    as (_ & _ & Hret & Hpage).
  split; [|split].
  - exact (proj1 (tagged_elements_at_most_60 gridLayout gridDoc)).
  - apply (Hret [0] (snd (markPage oneButtonLayout oneButtonDoc))).
    vm_compute. reflexivity.
  - apply (Hpage [0; 1]); [vm_compute; reflexivity|].
    vm_compute. discriminate.
Defined.



Lemma label_below_iff_near_top_witness :
  ∃ item bbox,
    selectItems oneButtonLayout oneButtonDoc !! 0 = Some item ∧ bbox ∈ rects item ∧
    rect_top bbox = 10%Q ∧
    (labelBelow bbox (labelTop bbox) ↔ (rect_top bbox < 20)%Q).
Proof.
  destruct (selectItems oneButtonLayout oneButtonDoc !! 0) as [item|] eqn:Hi;
    [|vm_compute in Hi; discriminate].
  destruct (rects item) as [|bbox rs] eqn:Hr;
    [vm_compute in Hi; injection Hi as <-; discriminate|].
  assert (bbox ∈ rects item) as Hin by (rewrite Hr; apply list_elem_of_here).
  exists item, bbox. split; [reflexivity|]. split; [exact Hin|].
  split.
  - vm_compute in Hi. injection Hi as <-. vm_compute in Hr. by injection Hr as <- _.
  - destruct (label_below_iff_near_top oneButtonLayout oneButtonDoc 0 item bbox Hi Hin)
      as (_ & label & _ & _ & _ & _ & _ & _ & Hbelow & _).
    exact Hbelow.
Defined.




(** * Further properties of the scripts *)

(** ** getDepth *)

(** X1.  [getDepth] counts the ancestors of an element: it is 0 for an
    element without a parent element, one more than for the parent
    otherwise, and so smaller for an ancestor than for the element. *)
Theorem getDepth_counts_ancestors (e : Element) :
  (parentElement e = None → getDepth e = 0) ∧
  (∀ p, parentElement e = Some p → getDepth e = S (getDepth p)) ∧
  (∀ a, ancestor a e → getDepth a < getDepth e).
Proof.
  rewrite getDepth_length. split_and!.
  - destruct (list_snoc_case e) as [-> | (p & i & ->)]; [done|].
    rewrite parentElement_snoc, length_app. destruct p; [simpl; lia|done].
  - intros p (Hp & i & ->)%parentElement_Some.
    rewrite getDepth_length, length_app. destruct p; [done|simpl; lia].
  - intros a (Ha & rest & Hrest & ->)%ancestor_suffix.
    rewrite getDepth_length, length_app.
    destruct a; [done|]. destruct rest; [done|]. simpl. lia.
Qed.

Lemma getDepth_counts_ancestors_witness :
  getDepth [0] = 0 ∧ getDepth [0; 1; 0] = S (getDepth [0; 1]) ∧
  getDepth [0] < getDepth [0; 1; 0].
Proof.
  split; [|split].
  - apply (proj1 (getDepth_counts_ancestors [0])). reflexivity.
  - apply (proj1 (proj2 (getDepth_counts_ancestors [0; 1; 0])) [0; 1]). reflexivity.
  - apply (proj2 (proj2 (getDepth_counts_ancestors [0; 1; 0])) [0]).
    apply ancestor_step with (p := [0; 1]); [reflexivity|].
    apply ancestor_parent. reflexivity.
Defined.

(** ** The rectangles *)

(** X2.  Every visible rectangle of an element lies in the viewport and has
    a positive size: its left and top edges are not negative, its right and
    bottom edges are not beyond the viewport width and height, and its
    width and height are the distances between its edges. *)
Theorem visibleRects_within_viewport (L : Layout) (e : Element) (r : Rect) :
  r ∈ visibleRects L e →
  (0 <= rect_left r)%Q ∧ (rect_left r < rect_right r)%Q ∧
  (rect_right r <= viewportWidth L)%Q ∧
  (0 <= rect_top r)%Q ∧ (rect_top r < rect_bottom r)%Q ∧
  (rect_bottom r <= viewportHeight L)%Q ∧
  (rect_width r <= viewportWidth L)%Q ∧ (rect_height r <= viewportHeight L)%Q.
Proof.
  unfold visibleRects. intros [Hr Hs]%elem_of_List_filter.
  apply list_elem_of_fmap in Hr as (box & -> & (bb & -> & _)%list_elem_of_fmap).
  unfold hasSize in Hs. apply andb_true_iff in Hs as [Hw Hh].
  apply Qlt_bool_iff in Hw, Hh. cbn in *.
  pose proof (Q.le_max_l 0 (bb_left bb)) as Hl.
  pose proof (Q.le_max_l 0 (bb_top bb)) as Ht.
  pose proof (Q.le_min_l (viewportWidth L) (bb_right bb)) as Hrt.
  pose proof (Q.le_min_l (viewportHeight L) (bb_bottom bb)) as Hb.
  split_and!; lra.
Qed.

Lemma visibleRects_within_viewport_witness :
  ∃ r, visibleRects edgeLayout [0; 1; 0] = [] ∧
       visibleRects oneButtonLayout [0; 1; 0] = [r] ∧
       (0 <= rect_left r)%Q ∧ (rect_right r <= viewportWidth oneButtonLayout)%Q.
Proof.
  destruct (visibleRects oneButtonLayout [0; 1; 0]) as [|r [|r' rs]] eqn:Hr;
    [vm_compute in Hr; discriminate | | vm_compute in Hr; discriminate].
  exists r. split; [vm_compute; reflexivity|]. split; [reflexivity|].
  assert (r ∈ visibleRects oneButtonLayout [0; 1; 0]) as Hin
    by (rewrite Hr; apply list_elem_of_here).
  destruct (visibleRects_within_viewport _ _ _ Hin) as (Hl & _ & Hrt & _).
  split; [exact Hl | exact Hrt].
Defined.

(** ** Nested candidates *)

Lemma contains_trans (a b c : Element) :
  contains a b = true → contains b c = true → contains a c = true.
Proof.
  rewrite !contains_prefix. intros [r1 ->] [r2 ->]. exists (r1 ++ r2).
  by rewrite app_assoc.
Qed.

Lemma nestedIn_true (items : list Candidate) (x : Candidate) :
  nestedIn items x = true ↔
  ∃ y, y ∈ items ∧ contains (element y) (element x) = true ∧
       element x ≠ element y.
Proof.
  unfold nestedIn. rewrite existsb_exists. split.
  - intros (y & Hy%list_elem_of_In & [Hc Hne]%andb_true_iff). exists y.
    split_and!; [done|done|]. apply negb_true_iff in Hne.
    intros Heq%Element_eqb_eq. congruence.
  - intros (y & Hy & Hc & Hne). exists y. split; [by apply list_elem_of_In|].
    rewrite Hc. simpl. apply negb_true_iff.
    destruct (Element_eqb _ _) eqn:E; [|done]. by apply Element_eqb_eq in E.
Qed.

Lemma outermost_of (items : list Candidate) (n : nat) (x : Candidate) :
  length (element x) < n → x ∈ items →
  ∃ y, y ∈ removeNested items ∧ contains (element y) (element x) = true.
Proof.
  revert x. induction n as [|n IH]; intros x Hlen Hx; [lia|].
  destruct (nestedIn items x) eqn:Hnested.
  - apply nestedIn_true in Hnested as (y & Hy & Hc & Hne).
    assert (length (element y) < length (element x)) as Hshorter.
    { apply contains_prefix in Hc as [rest Hrest]. rewrite Hrest, length_app.
      destruct rest; [|simpl; lia]. rewrite app_nil_r in Hrest. congruence. }
    destruct (IH y ltac:(lia) Hy) as (z & Hz & Hzy).
    exists z. split; [done|]. by eapply contains_trans.
  - exists x. split; [|apply contains_refl].
    unfold removeNested. apply elem_of_List_filter. by rewrite Hnested.
Qed.

Lemma List_filter_all {A} (f : A → bool) (l : list A) :
  (∀ x, x ∈ l → f x = true) → List.filter f l = l.
Proof.
  induction l as [|x l IH]; intros H; simpl; [done|].
  rewrite (H x) by left. f_equal. apply IH. intros y Hy. apply H. by right.
Qed.

(** X3.  The removal of nested candidates keeps the outermost ones: every
    candidate lies in or is one of the candidates that are kept, no kept
    candidate lies in another, and a second removal changes nothing. *)
Theorem removeNested_keeps_outermost (items : list Candidate) :
  (∀ x, x ∈ items →
        ∃ y, y ∈ removeNested items ∧ contains (element y) (element x) = true) ∧
  (∀ x y, x ∈ removeNested items → y ∈ removeNested items →
          contains (element y) (element x) = true → element x = element y) ∧
  removeNested (removeNested items) = removeNested items.
Proof.
  split_and!.
  - intros x Hx. by apply (outermost_of items (S (length (element x)))); [lia|].
  - intros x y [_ Hx]%elem_of_removeNested [Hy _]%elem_of_removeNested Hc.
    by apply Hx.
  - unfold removeNested at 1. apply List_filter_all. intros x Hx.
    apply negb_true_iff. destruct (nestedIn (removeNested items) x) eqn:E; [|done].
    apply nestedIn_true in E as (y & [Hy _]%elem_of_removeNested & Hc & Hne).
    apply elem_of_removeNested in Hx as [_ Hx]. destruct Hne. by apply Hx.
Qed.

Lemma removeNested_keeps_outermost_witness :
  ∃ y, y ∈ removeNested (scanPage nestedLayout nestedDoc) ∧
       contains (element y) [0; 1; 0; 0] = true.
Proof.
  destruct (scanElement nestedLayout nestedDoc [0; 1; 0; 0]) as [c|] eqn:Hc;
    [|vm_compute in Hc; discriminate].
  rewrite <- (scanElement_element _ _ _ _ Hc).
  apply (proj1 (removeNested_keeps_outermost (scanPage nestedLayout nestedDoc)) c).
  exact (scanned_candidate _ _ _ _ Hc).
Defined.

(** X4.  When at most 60 candidates are left after the removal of nested
    ones, the elements are tagged in document order: the list of tagged
    elements, in the order of their indices, is the list of all elements of
    the page with some left out. *)
Theorem indices_follow_document_order (L : Layout) (doc : Document) :
  length (removeNested (scanPage L doc)) ≤ 60 →
  selectItems L doc = removeNested (scanPage L doc) ∧
  taggedElements L doc `sublist_of` querySelectorAll_star doc.
Proof.
  intros Hlen.
  assert (selectItems L doc = removeNested (scanPage L doc)) as Heq.
  { unfold selectItems, prioritize, MAX_ELEMENTS.
    by rewrite (proj2 (Nat.ltb_ge 60 _) Hlen). }
  split; [done|]. unfold taggedElements. rewrite Heq.
  etransitivity; [|apply scanPage_sublist].
  apply fmap_sublist, removeNested_sublist.
Qed.

Lemma indices_follow_document_order_witness :
  length (removeNested (scanPage nestedLayout nestedDoc)) ≤ 60 ∧
  taggedElements nestedLayout nestedDoc `sublist_of` querySelectorAll_star nestedDoc.
Proof.
  assert (length (removeNested (scanPage nestedLayout nestedDoc)) ≤ 60) as Hlen
    by (vm_compute; lia).
  split; [exact Hlen|].
  exact (proj2 (indices_follow_document_order nestedLayout nestedDoc Hlen)).
Defined.

(** ** markPage where it stops early *)

Lemma selectItems_rects_nonempty (L : Layout) (doc : Document) (c : Candidate) :
  c ∈ selectItems L doc → rects c ≠ [].
Proof.
  intros Hc%selectItems_scanElement.
  by apply scanElement_Some in Hc as (_ & Hne & _ & ->).
Qed.



Lemma omap_all_None {A B} (f : A → option B) (l : list A) :
  (∀ x, x ∈ l → f x = None) → omap f l = [].
Proof.
  induction l as [|x l IH]; intros H; simpl; [done|].
  rewrite (H x) by left. apply IH. intros y Hy. apply H. by right.
Qed.

(** X6.  On a page where every element is either not interactive or has no
    visible rectangle, [markPage] returns the empty list and leaves the
    page as it is, with or without a body. *)
Theorem markPage_nothing_to_mark (L : Layout) (doc : Document) :
  doc ≠ [] →
  (∀ e n, nodeAt doc e = Some n →
          isInteractive n = false ∨ visibleRects L e = []) →
  markPage L doc = (Normal [], doc).
Proof.
  intros Hdoc Hnone.
  assert (selectItems L doc = []) as Hsel.
  { unfold selectItems. replace (scanPage L doc) with (@nil Candidate); [done|].
    symmetry. apply omap_all_None. intros e _.
    destruct (scanElement L doc e) as [c|] eqn:Hc; [|done].
    apply scanElement_Some in Hc as ((n & Hn & Hi) & Hr & _).
    destruct (Hnone e n Hn); congruence. }
  unfold markPage. destruct doc; [done|]. by rewrite Hsel.
Qed.

Lemma markPage_nothing_to_mark_witness :
  markPage oneButtonLayout plainDoc = (Normal [], plainDoc) ∧
  markPage edgeLayout oneButtonDoc = (Normal [], oneButtonDoc).
Proof.
  split.
  - apply markPage_nothing_to_mark; [discriminate|].
    intros e n Hn. left.
    assert (e ∈ querySelectorAll_star plainDoc) as He
      by (apply elem_of_querySelectorAll_star; eauto).
    vm_compute in He.
    repeat (apply elem_of_cons in He as [-> | He];
            [vm_compute in Hn; injection Hn as <-; vm_compute; reflexivity|]).
    by apply not_elem_of_nil in He.
  - apply markPage_nothing_to_mark; [discriminate|].
    intros e n Hn. right.
    destruct (decide (e = [0; 1; 0])) as [->|Hne]; [vm_compute; reflexivity|].
    unfold visibleRects. cbn [getClientRects edgeLayout].
    unfold Element_eqb. by rewrite bool_decide_eq_false_2.
Defined.

(** X7.  The elements that [markPage] adds to a page with a body are never
    tagged by a later call, whatever the layout then is: the boxes and
    their labels are not interactive. *)
Theorem added_elements_never_tagged (L L' : Layout) (doc : Document) (b e : Element) :
  body doc = Some b →
  nodeAt doc e = None →
  e ∉ taggedElements L' (snd (markPage L doc)).
Proof.
  intros Hb Hnone (c & -> & Hc)%list_elem_of_fmap.
  apply selectItems_scanElement, scanElement_Some in Hc as ((n' & Hn' & Hi) & _).
  destruct (nodeAt_marked_new L doc b _ n' Hb Hnone Hn') as (nb & j & rest & _ & _ & Hov).
  destruct (nodeAt_overlays _ _ _ (overlays_are_containers _ _) Hov)
    as (i & bbox & [-> | ->]).
  - unfold isInteractive, hasAttribute in Hi. cbn in Hi.
    rewrite lookup_singleton_ne in Hi by done. cbn in Hi. done.
  - done.
Qed.

Lemma added_elements_never_tagged_witness :
  is_Some (nodeAt (snd (markPage oneButtonLayout oneButtonDoc)) [0; 1; 1]) ∧
  [0; 1; 1] ∉ taggedElements oneButtonLayout (snd (markPage oneButtonLayout oneButtonDoc)).
Proof.
  split; [vm_compute; eauto|].
  apply (added_elements_never_tagged _ _ _ [0; 1]); vm_compute; reflexivity.
Defined.

(** ** The clean-up scripts, on every page *)

Lemma updateAt_same (f : Node → Node) (cs : list Node) (e : Element) :
  (∀ n, nodeAt cs e = Some n → f n = n) → updateAt f cs e = cs.
Proof.
  revert cs. induction e as [|i rest IH]; intros cs Hf; [done|].
  rewrite updateAt_cons.
  rewrite (list_alter_ext _ id cs cs i); [by apply list_alter_id|  |done].
  intros c Hc. destruct rest as [|j rest].
  - apply Hf. by rewrite nodeAt_cons, Hc.
  - unfold withChildren. rewrite IH; [by destruct c|].
    intros n Hn. apply Hf. by rewrite nodeAt_cons, Hc.
Qed.

Lemma removeAttribute_absent (doc : Document) (e : Element) (name : string) :
  attributeOf doc e name = None → removeAttribute e name doc = doc.
Proof.
  intros Hnone. apply updateAt_same. intros n Hn.
  unfold attributeOf, getAttribute in Hnone. rewrite Hn in Hnone.
  unfold withAttributes. rewrite delete_id by done. by destruct n.
Qed.

Lemma removeAttributes_absent (removed : string) (els : list Element) (doc : Document) :
  (∀ e, e ∈ els → attributeOf doc e removed = None) →
  fold_left (fun d el => removeAttribute el removed d) els doc = doc.
Proof.
  induction els as [|el els IH]; intros H; simpl; [done|].
  rewrite removeAttribute_absent by (apply H; left).
  apply IH. intros e He. apply H. by right.
Qed.

Lemma attributeOf_removeAttributeFromAll (selected removed : string)
    (doc : Document) (e : Element) :
  e ∈ querySelectorAll_attr selected doc →
  attributeOf (removeAttributeFromAll selected removed doc) e removed = None.
Proof.
  intros He. unfold attributeOf, removeAttributeFromAll, getAttribute.
  pose proof (nodeAt_removeAttributes removed (querySelectorAll_attr selected doc) doc e)
    as H.
  inversion H as [n n' (_ & _ & Hat)|]; [|done].
  rewrite Hat, bool_decide_eq_true_2 by done. apply lookup_delete_eq.
Qed.

Lemma querySelectorAll_attr_ext (name : string) (doc doc' : Document) :
  querySelectorAll_star doc' = querySelectorAll_star doc →
  (∀ e, attributeOf doc' e name = None ↔ attributeOf doc e name = None) →
  querySelectorAll_attr name doc' = querySelectorAll_attr name doc.
Proof.
  intros Hstar Hattr. unfold querySelectorAll_attr. rewrite Hstar.
  assert (∀ e, elementHasAttribute doc' name e = elementHasAttribute doc name e) as Hext.
  { intros e. specialize (Hattr e). unfold attributeOf, getAttribute in Hattr.
    unfold elementHasAttribute, hasAttribute.
    destruct (nodeAt doc' e) as [n'|], (nodeAt doc e) as [n|].
    - apply bool_decide_ext. rewrite <- !not_eq_None_Some. by rewrite Hattr.
    - apply bool_decide_eq_false. rewrite <- not_eq_None_Some.
      intros H. by apply H, Hattr.
    - symmetry. apply bool_decide_eq_false. rewrite <- not_eq_None_Some.
      intros H. by apply H, Hattr.
    - done. }
  apply filter_ext, Hext.
Qed.

Lemma forestFrom_alter (G : Node → Node) (cs : list Node) (i k : nat) :
  (∀ c, cs !! i = Some c → subtree (G c) = subtree c) →
  forestFrom (alter G i cs) k = forestFrom cs k.
Proof.
  revert i k. induction cs as [|c cs IH]; intros i k HG; [done|].
  destruct i as [|i]; simpl.
  - by rewrite (HG c eq_refl).
  - f_equal. apply (IH i (S k)). intros c'. apply (HG c').
Qed.

(** An update that leaves the children of the node it reaches alone leaves
    the list of the elements of the page as it is. *)
Lemma forestFrom_updateAt (f : Node → Node) (cs : list Node) (e : Element) (k : nat) :
  (∀ n, children (f n) = children n) →
  forestFrom (updateAt f cs e) k = forestFrom cs k.
Proof.
  intros Hf. revert cs k. induction e as [|i rest IH]; intros cs k; [done|].
  rewrite updateAt_cons. apply forestFrom_alter. intros c _.
  rewrite !subtree_unfold. f_equal. destruct rest as [|j rest].
  - by rewrite Hf.
  - cbn [withChildren children]. apply IH.
Qed.

Lemma querySelectorAll_star_removeAttributes (removed : string) (els : list Element)
    (doc : Document) :
  querySelectorAll_star (fold_left (fun d el => removeAttribute el removed d) els doc)
  = querySelectorAll_star doc.
Proof.
  revert doc. induction els as [|el els IH]; intros doc; simpl; [done|].
  rewrite IH. by apply forestFrom_updateAt.
Qed.

(** X8.  [clearElements] takes the index attribute off every element and
    changes nothing else: afterwards no element carries it, and every
    element is where it was with its tag, style, text, number of children
    and its other attributes. *)
Theorem clearElements_strips_index_only (doc : Document) :
  querySelectorAll_attr elementIndexAttr (clearElements doc) = [] ∧
  querySelectorAll_star (clearElements doc) = querySelectorAll_star doc ∧
  (∀ e n, nodeAt doc e = Some n →
     ∃ n', nodeAt (clearElements doc) e = Some n' ∧
           tagName n' = tagName n ∧ style n' = style n ∧
           textContent n' = textContent n ∧
           length (children n') = length (children n) ∧
           attributes n' = delete elementIndexAttr (attributes n)).
Proof.
  split_and!.
  - apply clearElements_removes_indices.
  - apply querySelectorAll_star_removeAttributes.
  - intros e n Hn.
    pose proof (nodeAt_removeAttributes elementIndexAttr
                  (querySelectorAll_attr elementIndexAttr doc) doc e) as H.
    rewrite Hn in H. inversion H as [? n' (Hf & Ha & Hat) Heq Hn'|]; subst.
    exists n'. unfold face in Hf. injection Hf as Ht Hs Htxt.
    split_and!; try done. rewrite Hat.
    destruct (bool_decide _) eqn:Hin; [done|].
    apply bool_decide_eq_false, attributeOf_None_iff in Hin.
    unfold attributeOf, getAttribute in Hin. rewrite Hn in Hin.
    by rewrite delete_id.
Qed.

Lemma clearElements_strips_index_only_witness :
  ∃ n', nodeAt (clearElements (snd (markPage oneButtonLayout oneButtonDoc))) [0; 1; 0]
          = Some n' ∧
        tagName n' = "BUTTON" ∧ attributes n' = ∅.
Proof.
  destruct (nodeAt (snd (markPage oneButtonLayout oneButtonDoc)) [0; 1; 0])
    as [n|] eqn:Hn; [|vm_compute in Hn; discriminate].
  destruct (proj2 (proj2 (clearElements_strips_index_only
                            (snd (markPage oneButtonLayout oneButtonDoc)))) _ n Hn)
    as (n' & Hn' & Ht & _ & _ & _ & Hat).
  exists n'. split; [exact Hn'|].
  vm_compute in Hn. injection Hn as <-. split; [exact Ht|].
  rewrite Hat. vm_compute. reflexivity.
Defined.

Lemma clearElements_clean (doc : Document) :
  querySelectorAll_attr elementIndexAttr doc = [] → clearElements doc = doc.
Proof.
  intros H. unfold clearElements, removeAttributeFromAll.
  fold elementIndexAttr. by rewrite H.
Qed.

Lemma clearRectsAndTags_second_pass_twice (doc : Document) :
  removeAttributeFromAll "date-voyager-element-index" elementIndexAttr
    (removeAttributeFromAll "date-voyager-element-index" elementIndexAttr doc)
  = removeAttributeFromAll "date-voyager-element-index" elementIndexAttr doc.
Proof.
  set (doc1 := removeAttributeFromAll "date-voyager-element-index" elementIndexAttr doc).
  unfold removeAttributeFromAll at 1. apply removeAttributes_absent.
  intros e He.
  assert (querySelectorAll_attr "date-voyager-element-index" doc1
          = querySelectorAll_attr "date-voyager-element-index" doc) as Hq.
  { apply querySelectorAll_attr_ext.
    - apply querySelectorAll_star_removeAttributes.
    - intros e'. unfold doc1. by rewrite removeAttributeFromAll_lookup. }
  rewrite Hq in He. by apply attributeOf_removeAttributeFromAll.
Qed.

(** X9.  Both clean-up scripts can be run again without effect: a second
    run of [clearRectsAndTags], or of [clearElements], leaves the page as
    the first run left it. *)
Theorem cleanup_idempotent (doc : Document) :
  clearRectsAndTags (clearRectsAndTags doc) = clearRectsAndTags doc ∧
  clearElements (clearElements doc) = clearElements doc.
Proof.
  split.
  - unfold clearRectsAndTags at 1.
    rewrite (removeAll_free "data-voyager-rect-index" (clearRectsAndTags doc)).
    + unfold clearRectsAndTags. apply clearRectsAndTags_second_pass_twice.
    + apply (attribute_free rectIndexAttr), clearRectsAndTags_removes_overlays.
  - apply clearElements_clean, clearElements_removes_indices.
Qed.

(** X10.  On a page on which no element carries the rectangle-index or the
    index attribute, as before any marking, both clean-up scripts leave the
    page as it is. *)
Theorem cleanup_without_marks (doc : Document) :
  querySelectorAll_attr rectIndexAttr doc = [] →
  querySelectorAll_attr elementIndexAttr doc = [] →
  clearRectsAndTags doc = doc ∧ clearElements doc = doc.
Proof.
  intros Hrect Hidx. split; [|by apply clearElements_clean].
  unfold clearRectsAndTags.
  rewrite (removeAll_free "data-voyager-rect-index" doc)
    by (by apply (attribute_free rectIndexAttr)).
  apply removeAttributes_absent. intros e _.
  apply attributeOf_None_iff. fold elementIndexAttr. rewrite Hidx.
  apply not_elem_of_nil.
Qed.

Lemma cleanup_without_marks_witness :
  clearRectsAndTags oneButtonDoc = oneButtonDoc ∧ clearElements oneButtonDoc = oneButtonDoc.
Proof.
  apply cleanup_without_marks; vm_compute; reflexivity.
Defined.

(** X11.  After [clearRectsAndTags] no element of the page carries the
    rectangle-index attribute, whatever the page was. *)
Theorem clearRectsAndTags_no_overlay_left (doc : Document) (e : Element) :
  attributeOf (clearRectsAndTags doc) e rectIndexAttr = None.
Proof.
  apply attributeOf_None_iff. rewrite clearRectsAndTags_removes_overlays.
  apply not_elem_of_nil.
Qed.

(** ** Marking and clearing together *)

Lemma forest_ext_of (cs : list Node) :
  Forall (fun n => ∀ n', own n' = own n →
            (∀ e, own <$> nodeAt (children n') e = own <$> nodeAt (children n) e) →
            n' = n) cs →
  ∀ cs', (∀ e, own <$> nodeAt cs' e = own <$> nodeAt cs e) → cs' = cs.
Proof.
  induction 1 as [|c cs Hc _ IH]; intros cs' H.
  - destruct cs' as [|c' cs']; [done|]. specialize (H [0]). done.
  - destruct cs' as [|c' cs']; [specialize (H [0]); done|].
    f_equal.
    + apply Hc.
      * specialize (H [0]). unfold own in *. simpl in H. congruence.
      * intros e. destruct e as [|j rest]; [done|]. apply (H (0 :: j :: rest)).
    + apply IH. intros e. destruct e as [|i rest]; [done|].
      specialize (H (S i :: rest)). by rewrite !nodeAt_cons in *.
Qed.

(** Two pages on which every reference denotes a node with the same tag,
    attributes, style and text are the same page. *)
Lemma forest_ext (cs cs' : list Node) :
  (∀ e, own <$> nodeAt cs' e = own <$> nodeAt cs e) → cs' = cs.
Proof.
  revert cs'. apply forest_ext_of, Forall_forall. intros n _. clear cs.
  induction n as [tag attrs st txt cs IH] using Node_forall_ind.
  intros [tag' attrs' st' txt' cs'] Hown Hbelow. unfold own in Hown. simpl in *.
  injection Hown as -> -> -> ->. f_equal. by apply forest_ext_of.
Qed.

Lemma nodeAt_tagFrom_delete (items : list Candidate) (k : nat) (doc : Document)
    (e' : Element) :
  option_Forall2
    (fun n n' => face n' = face n ∧
                 delete elementIndexAttr (attributes n')
                 = delete elementIndexAttr (attributes n))
    (nodeAt doc e') (nodeAt (tagFrom k items doc) e').
Proof.
  revert k doc. induction items as [|item items IH]; intros k doc; simpl.
  - apply option_Forall2_same. by intros n.
  - specialize (IH (S k) (setAttribute (element item) elementIndexAttr (pretty k) doc)).
    destruct (nodeAt_setAttribute doc (element item) e' elementIndexAttr (pretty k))
      as [n n1 (Hf1 & _ & Hat1)|]; [|inversion IH; constructor].
    inversion IH as [? n' (Hf & Hat)|]; subst. constructor.
    split; [congruence|]. rewrite Hat, Hat1.
    destruct (bool_decide _); [|done]. apply delete_insert_eq.
Qed.

Lemma nodeAt_clearElements (doc : Document) (e : Element) :
  option_Forall2
    (fun n n' => face n' = face n ∧
                 attributes n' = delete elementIndexAttr (attributes n))
    (nodeAt doc e) (nodeAt (clearElements doc) e).
Proof.
  pose proof (nodeAt_removeAttributes elementIndexAttr
                (querySelectorAll_attr elementIndexAttr doc) doc e) as H.
  change (clearElements doc)
    with (fold_left (fun d el => removeAttribute el elementIndexAttr d)
            (querySelectorAll_attr elementIndexAttr doc) doc).
  inversion H as [n n' (Hf & _ & Hat) Hn Hn'|]; [|constructor].
  constructor. split; [done|]. rewrite Hat.
  destruct (bool_decide _) eqn:Hin; [done|].
  apply bool_decide_eq_false, attributeOf_None_iff in Hin.
  unfold attributeOf, getAttribute in Hin. rewrite <- Hn in Hin.
  by rewrite delete_id.
Qed.

(** [clearElements] undoes the tagging of a page that had no index. *)
Lemma clearElements_tagFrom (items : list Candidate) (k : nat) (doc : Document) :
  querySelectorAll_attr elementIndexAttr doc = [] →
  clearElements (tagFrom k items doc) = doc.
Proof.
  intros Hclean. apply forest_ext. intros e.
  pose proof (nodeAt_tagFrom_delete items k doc e) as H1.
  pose proof (nodeAt_clearElements (tagFrom k items doc) e) as H2.
  inversion H1 as [n nD (Hf1 & Hat1) Hn HnD|Hn HnD]; rewrite <- HnD in H2;
    inversion H2 as [? n' (Hf2 & Hat2)|]; subst; [|done].
  simpl. f_equal. unfold own. unfold face in *.
  injection Hf1 as Ht1 Hs1 Hx1. injection Hf2 as Ht2 Hs2 Hx2.
  assert (attributes n !! elementIndexAttr = None) as Hfree.
  { assert (attributeOf doc e elementIndexAttr = None) as Ha.
    { apply attributeOf_None_iff. rewrite Hclean. apply not_elem_of_nil. }
    unfold attributeOf, getAttribute in Ha. by rewrite <- Hn in Ha. }
  rewrite Hat2, Hat1, (delete_id _ _ Hfree). congruence.
Qed.

(** X12.  On a page with a body on which no element carries the index
    attribute, the rectangle-index attribute or an attribute of the
    misspelt name, [markPage] followed by [clearRectsAndTags] and then
    [clearElements] gives back the page exactly as it was. *)
Theorem mark_then_both_cleanups_restores (L : Layout) (doc : Document) (b : Element) :
  body doc = Some b →
  querySelectorAll_attr elementIndexAttr doc = [] →
  querySelectorAll_attr rectIndexAttr doc = [] →
  querySelectorAll_attr "date-voyager-element-index" doc = [] →
  clearElements (clearRectsAndTags (snd (markPage L doc))) = doc.
Proof.
  intros Hb Hidx Hrect Hdate.
  destruct (clearRectsAndTags_after_markPage L doc b Hb Hrect Hdate) as [-> _].
  by apply clearElements_tagFrom.
Qed.

Lemma mark_then_both_cleanups_restores_witness :
  clearElements (clearRectsAndTags (snd (markPage oneButtonLayout oneButtonDoc)))
  = oneButtonDoc.
Proof.
  apply (mark_then_both_cleanups_restores _ _ [0; 1]); vm_compute; reflexivity.
Defined.

(** ** Marks that are already on the page *)

Lemma forestFrom_app (l k : list Node) (i : nat) :
  forestFrom (l ++ k) i = forestFrom l i ++ forestFrom k (i + length l).
Proof.
  revert i. induction l as [|c l IH]; intros i; simpl.
  - by rewrite Nat.add_0_r.
  - rewrite IH, <- app_assoc. do 3 f_equal. lia.
Qed.

Lemma forestFrom_alter_sublist (G : Node → Node) (cs : list Node) (i k : nat) :
  (∀ c, cs !! i = Some c → subtree c `sublist_of` subtree (G c)) →
  forestFrom cs k `sublist_of` forestFrom (alter G i cs) k.
Proof.
  revert i k. induction cs as [|c cs IH]; intros i k HG; [done|].
  destruct i as [|i]; simpl.
  - apply sublist_app; [|done]. apply fmap_sublist, (HG c eq_refl).
  - apply sublist_app; [done|]. apply (IH i (S k)). intros c'. apply (HG c').
Qed.

Lemma forestFrom_appendChildren (cs ov : list Node) (b : Element) (k : nat) :
  forestFrom cs k `sublist_of` forestFrom (appendChildren b ov cs) k.
Proof.
  unfold appendChildren. revert cs k. induction b as [|i rb IH]; intros cs k; [done|].
  rewrite updateAt_cons. apply forestFrom_alter_sublist. intros c _.
  rewrite !subtree_unfold. apply sublist_skip. destruct rb as [|j rb].
  - cbn [withChildren children]. rewrite forestFrom_app.
    by apply sublist_inserts_r.
  - cbn [withChildren children]. apply IH.
Qed.

Lemma querySelectorAll_star_tagFrom (items : list Candidate) (k : nat) (doc : Document) :
  querySelectorAll_star (tagFrom k items doc) = querySelectorAll_star doc.
Proof.
  revert k doc. induction items as [|item items IH]; intros k doc; simpl; [done|].
  rewrite IH. by apply forestFrom_updateAt.
Qed.

Lemma omap_cons_eq {A B} (f : A → option B) (x : A) (l : list A) :
  omap f (x :: l) = match f x with Some y => y :: omap f l | None => omap f l end.
Proof. reflexivity. Qed.

Lemma omap_sublist_None {A B} (f : A → option B) (l l' : list A) :
  l `sublist_of` l' → NoDup l' →
  (∀ x, x ∈ l' → x ∉ l → f x = None) →
  omap f l' = omap f l.
Proof.
  induction 1 as [|x l1 l2 Hsub IH|x l1 l2 Hsub IH]; intros Hnd Hextra; [done| |].
  - apply NoDup_cons in Hnd as [Hx Hnd]. rewrite !omap_cons_eq, IH; [done|done|].
    intros y Hy Hnot. apply Hextra; [by right|].
    intros [->|Hin]%elem_of_cons; done.
  - apply NoDup_cons in Hnd as [Hx Hnd]. rewrite omap_cons_eq, (Hextra x); [|left|].
    + apply IH; [done|]. intros y Hy Hnot. apply Hextra; [by right|done].
    + intros Hin. apply Hx. by eapply elem_of_sublist.
Qed.

Lemma omap_ext_in {A B} (f g : A → option B) (l : list A) :
  (∀ x, x ∈ l → f x = g x) → omap f l = omap g l.
Proof.
  induction l as [|x l IH]; intros H; [done|].
  rewrite !omap_cons_eq, (H x) by left. rewrite IH; [done|].
  intros y Hy. apply H. by right.
Qed.

Lemma isInteractive_ext (n n' : Node) :
  tagName n' = tagName n → attributes n' !! "role" = attributes n !! "role" →
  isInteractive n' = isInteractive n.
Proof.
  intros Ht Hr. unfold isInteractive, hasAttribute, getAttribute. by rewrite Ht, Hr.
Qed.

Lemma scanElement_ext (L : Layout) (doc doc' : Document) (e : Element) :
  option_Forall2 (fun n n' => isInteractive n' = isInteractive n)
    (nodeAt doc e) (nodeAt doc' e) →
  scanElement L doc' e = scanElement L doc e.
Proof.
  intros H. unfold scanElement. destruct H as [n n' Hi|]; [|done]. by rewrite Hi.
Qed.

Lemma scanElement_marked (L L' : Layout) (doc : Document) (b e : Element) :
  body doc = Some b →
  scanElement L' (snd (markPage L doc)) e = scanElement L' doc e.
Proof.
  intros Hb. destruct (nodeAt doc e) as [n|] eqn:Hn.
  - apply scanElement_ext. rewrite Hn.
    destruct (nodeAt_marked_old L doc b e n Hb Hn) as (n' & -> & Hf & _ & Hsame & Htag).
    constructor. unfold face in Hf. injection Hf as Ht _ _.
    apply isInteractive_ext; [done|].
    destruct (decide (e ∈ taggedElements L doc)) as [Hin|Hnot].
    + apply elem_of_taggedElements in Hin as (i & item & Hi & He).
      rewrite (Htag i item Hi He). by apply lookup_insert_ne.
    + by rewrite (Hsame Hnot).
  - unfold scanElement. rewrite Hn.
    destruct (nodeAt (snd (markPage L doc)) e) as [n'|] eqn:Hn'; [|done].
    destruct (nodeAt_marked_new L doc b e n' Hb Hn Hn') as (nb & j & rest & _ & _ & Hov).
    destruct (nodeAt_overlays _ _ _ (overlays_are_containers _ _) Hov)
      as (i & bbox & [-> | ->]); [|done].
    unfold isInteractive, hasAttribute. cbn.
    by rewrite lookup_singleton_ne.
Qed.

Lemma scanPage_marked (L L' : Layout) (doc : Document) (b : Element) :
  body doc = Some b → scanPage L' (snd (markPage L doc)) = scanPage L' doc.
Proof.
  intros Hb. unfold scanPage.
  rewrite (omap_ext_in _ (scanElement L' doc));
    [|intros e _; by eapply scanElement_marked].
  apply omap_sublist_None.
  - rewrite (markPage_run L doc b Hb). cbn [snd].
    rewrite <- (querySelectorAll_star_tagFrom (selectItems L doc) 0 doc).
    apply forestFrom_appendChildren.
  - apply NoDup_querySelectorAll_star.
  - intros e _ Hnot. unfold scanElement.
    destruct (nodeAt doc e) as [n|] eqn:Hn; [|done].
    destruct Hnot. apply elem_of_querySelectorAll_star. eauto.
Qed.

Lemma scanPage_clearElements (L : Layout) (doc : Document) :
  scanPage L (clearElements doc) = scanPage L doc.
Proof.
  unfold scanPage.
  replace (querySelectorAll_star (clearElements doc)) with (querySelectorAll_star doc)
    by (symmetry; apply querySelectorAll_star_removeAttributes).
  apply omap_ext_in. intros e _. apply scanElement_ext.
  destruct (nodeAt_clearElements doc e) as [n n' (Hf & Hat)|]; constructor.
  unfold face in Hf. injection Hf as Ht _ _.
  apply isInteractive_ext; [done|]. rewrite Hat. by apply lookup_delete_ne.
Qed.

(** X13.  Which elements are selected does not depend on marks that are
    already on the page: under any layout, the selection on a page that
    [markPage] has marked, or that [clearElements] has cleared, is the
    selection on the page before. *)
Theorem selection_ignores_marks (L' : Layout) (doc : Document) :
  (∀ L b, body doc = Some b →
          selectItems L' (snd (markPage L doc)) = selectItems L' doc) ∧
  selectItems L' (clearElements doc) = selectItems L' doc.
Proof.
  split.
  - intros L b Hb. unfold selectItems. by rewrite (scanPage_marked L L' doc b Hb).
  - unfold selectItems. by rewrite scanPage_clearElements.
Qed.

Lemma selection_ignores_marks_witness :
  taggedElements oneButtonLayout (snd (markPage oneButtonLayout oneButtonDoc))
  = [[0; 1; 0]].
Proof.
  unfold taggedElements.
  rewrite (proj1 (selection_ignores_marks oneButtonLayout oneButtonDoc)
             oneButtonLayout [0; 1]) by (vm_compute; reflexivity).
  vm_compute. reflexivity.
Defined.

(** X14.  On a page with a body, every overlay box that [markPage] appends
    belongs to a tagged element: its rectangle-index attribute and the text
    of its label are the index written on that element; and every tagged
    element has at least one box, so there are at least as many boxes as
    tagged elements. *)
Theorem overlay_boxes_match_tags (L : Layout) (doc : Document) (b : Element) :
  body doc = Some b →
  (∀ c, c ∈ overlaysFrom 0 (selectItems L doc) →
     ∃ i item label,
       selectItems L doc !! i = Some item ∧
       attributeOf (snd (markPage L doc)) (element item) elementIndexAttr
         = Some (pretty i) ∧
       attributes c !! rectIndexAttr = Some (pretty i) ∧
       children c = [label] ∧ textContent label = pretty i) ∧
  (∀ i item, selectItems L doc !! i = Some item →
     ∃ bbox, bbox ∈ rects item ∧
             createContainer i bbox ∈ overlaysFrom 0 (selectItems L doc)) ∧
  length (selectItems L doc) ≤ length (overlaysFrom 0 (selectItems L doc)).
Proof.
  intros Hb. split_and!.
  - intros c (i & item & bbox & Hi & Hbbox & ->)%elem_of_overlaysFrom.
    exists i, item, (createLabel i bbox).
    split_and!; [done | by eapply attributeOf_marked_tagged
                | apply lookup_singleton_eq | done | done].
  - intros i item Hi.
    assert (rects item ≠ []) as Hne.
    { apply (selectItems_rects_nonempty L doc). by eapply list_elem_of_lookup_2. }
    destruct (rects item) as [|bbox bboxes] eqn:Hr; [done|].
    exists bbox. split; [left|].
    apply elem_of_overlaysFrom. exists i, item, bbox. rewrite Hr.
    split_and!; [done|left|done].
  - rewrite length_overlaysFrom.
    assert (Forall (fun c => rects c ≠ []) (selectItems L doc)) as Hall.
    { apply Forall_forall. intros c. apply selectItems_rects_nonempty. }
    induction Hall as [|c l Hc _ IH]; [done|].
    simpl. unfold fmap in IH. destruct (rects c); [done|]. simpl. lia.
Qed.

Lemma overlay_boxes_match_tags_witness :
  ∃ bbox, createContainer 0 bbox ∈ overlaysFrom 0 (selectItems oneButtonLayout oneButtonDoc).
Proof.
  assert (body oneButtonDoc = Some [0; 1]) as Hb by (vm_compute; reflexivity).
  destruct (selectItems oneButtonLayout oneButtonDoc !! 0) as [item|] eqn:Hi;
    [|vm_compute in Hi; discriminate].
  destruct (proj1 (proj2 (overlay_boxes_match_tags oneButtonLayout oneButtonDoc [0; 1] Hb))
              0 item Hi) as (bbox & _ & Hin).
  exists bbox. exact Hin.
Defined.

(** ** The text of a candidate *)

Lemma collapseSpaces_cons (c : N) (rest : list N) :
  collapseSpaces (c :: rest) =
  if isWhiteSpace c && startsWithWhiteSpace rest
  then 32%N :: collapseSpaces (trimStart rest)
  else c :: collapseSpaces rest.
Proof.
  simp collapseSpaces. by destruct (isWhiteSpace c && startsWithWhiteSpace rest).
Qed.

Lemma trimStart_split (s : list N) :
  ∃ p, s = p ++ trimStart s ∧ Forall (fun c => isWhiteSpace c = true) p.
Proof.
  induction s as [|c s (p & Hs & Hp)]; simpl; [by exists []|].
  destruct (isWhiteSpace c) eqn:Hc.
  - exists (c :: p). split; [simpl; by f_equal|by constructor].
  - by exists [].
Qed.

Lemma length_trimStart (s : list N) : length (trimStart s) ≤ length s.
Proof.
  destruct (trimStart_split s) as (p & Hs & _). rewrite Hs at 2.
  rewrite length_app. lia.
Qed.

Lemma startsWith_trimStart (s : list N) : startsWithWhiteSpace (trimStart s) = false.
Proof.
  induction s as [|c s IH]; simpl; [done|].
  destruct (isWhiteSpace c) eqn:Hc; [done|]. simpl. done.
Qed.

Lemma trimStart_id (s : list N) : startsWithWhiteSpace s = false → trimStart s = s.
Proof. destruct s as [|c s]; simpl; [done|]. by intros ->. Qed.

Lemma trimStart_snoc (s : list N) (c : N) :
  isWhiteSpace c = false → trimStart (s ++ [c]) = trimStart s ++ [c].
Proof.
  intros Hc. induction s as [|x s IH]; simpl; [by rewrite Hc|].
  by destruct (isWhiteSpace x).
Qed.

Lemma trimStart_all (s : list N) :
  Forall (fun c => isWhiteSpace c = true) s → trimStart s = [].
Proof. induction 1 as [|c s Hc _ IH]; simpl; [done|]. by rewrite Hc. Qed.

Lemma filter_trimStart (s : list N) :
  List.filter notWhiteSpace (trimStart s) = List.filter notWhiteSpace s.
Proof.
  induction s as [|c s IH]; simpl; [done|]. unfold notWhiteSpace at 2.
  destruct (isWhiteSpace c) eqn:Hc; simpl; [done|].
  unfold notWhiteSpace at 1. by rewrite Hc.
Qed.

Lemma filter_rev_eq {A} (f : A → bool) (l : list A) :
  List.filter f (rev l) = rev (List.filter f l).
Proof.
  induction l as [|x l IH]; simpl; [done|].
  rewrite List.filter_app, IH. simpl. destruct (f x); simpl; [done|].
  by rewrite app_nil_r.
Qed.

Lemma filter_trim (s : list N) :
  List.filter notWhiteSpace (trim s) = List.filter notWhiteSpace s.
Proof.
  unfold trim, trimEnd.
  by rewrite filter_rev_eq, filter_trimStart, filter_rev_eq, rev_involutive,
    filter_trimStart.
Qed.

(** [trimEnd] takes white space off the end. *)
Lemma trimEnd_split (s : list N) :
  ∃ q, s = trimEnd s ++ q ∧ Forall (fun c => isWhiteSpace c = true) q.
Proof.
  unfold trimEnd. destruct (trimStart_split (rev s)) as (p & Hs & Hp).
  exists (rev p). split; [|by apply Forall_rev].
  rewrite <- rev_app_distr, <- Hs. by rewrite rev_involutive.
Qed.

Lemma startsWith_app (s q : list N) :
  s ≠ [] → startsWithWhiteSpace (s ++ q) = startsWithWhiteSpace s.
Proof. by destruct s. Qed.

Lemma startsWith_trim (s : list N) : startsWithWhiteSpace (trim s) = false.
Proof.
  unfold trim. destruct (trimEnd_split (trimStart s)) as (q & Hs & _).
  destruct (trimEnd (trimStart s)) as [|c t] eqn:Ht; [done|].
  rewrite <- (startsWith_app (c :: t) q) by done.
  rewrite <- Hs. apply startsWith_trimStart.
Qed.

Lemma endsWith_trim (s : list N) : endsWithWhiteSpace (trim s) = false.
Proof.
  unfold endsWithWhiteSpace, trim, trimEnd. rewrite rev_involutive.
  apply startsWith_trimStart.
Qed.

Lemma trim_id (s : list N) :
  startsWithWhiteSpace s = false → endsWithWhiteSpace s = false → trim s = s.
Proof.
  intros Hs He. unfold trim, trimEnd. rewrite (trimStart_id s Hs).
  rewrite (trimStart_id (rev s) He). apply rev_involutive.
Qed.

Lemma trim_all (s : list N) :
  Forall (fun c => isWhiteSpace c = true) s → trim s = [].
Proof. intros H. unfold trim. by rewrite (trimStart_all s H). Qed.

Section collapse.
(** Facts on [collapseSpaces], each by induction on the length of the
    string. *)
Variable P : list N → Prop.
Hypothesis P_nil : P [].
Hypothesis P_run : ∀ c rest,
  isWhiteSpace c && startsWithWhiteSpace rest = true →
  P (trimStart rest) → P (c :: rest).
Hypothesis P_copy : ∀ c rest,
  isWhiteSpace c && startsWithWhiteSpace rest = false →
  P rest → P (c :: rest).

Lemma collapse_ind (s : list N) : P s.
Proof using P_nil P_run P_copy.
  assert (∀ n s, length s < n → P s) as H; [|apply (H (S (length s))); lia].
  clear s. induction n as [|n IH]; intros s Hlen; [lia|].
  destruct s as [|c rest]; [done|]. simpl in Hlen.
  destruct (isWhiteSpace c && startsWithWhiteSpace rest) eqn:E.
  - apply P_run; [done|]. apply IH. pose proof (length_trimStart rest). lia.
  - apply P_copy; [done|]. apply IH. lia.
Qed.
End collapse.

Lemma startsWith_collapse (s : list N) :
  startsWithWhiteSpace s = false → startsWithWhiteSpace (collapseSpaces s) = false.
Proof.
  destruct s as [|c rest]; [done|]. simpl. intros Hc.
  by rewrite collapseSpaces_cons, Hc.
Qed.

Lemma adjacent_collapse (s : list N) : adjacentWhiteSpace (collapseSpaces s) = false.
Proof.
  induction s as [|c rest E IH|c rest E IH] using collapse_ind; [done| |];
    rewrite collapseSpaces_cons, E; cbn [adjacentWhiteSpace]; rewrite IH.
  - rewrite (startsWith_collapse _ (startsWith_trimStart rest)).
    by rewrite andb_false_r.
  - rewrite orb_false_r. destruct (isWhiteSpace c) eqn:Hc; [|done].
    simpl in *. by apply startsWith_collapse.
Qed.

Lemma filter_collapse (s : list N) :
  List.filter notWhiteSpace (collapseSpaces s) = List.filter notWhiteSpace s.
Proof.
  induction s as [|c rest E IH|c rest E IH] using collapse_ind; [done| |];
    rewrite collapseSpaces_cons, E.
  - apply andb_true_iff in E as [Hc _].
    change (List.filter notWhiteSpace (32%N :: ?l)) with (List.filter notWhiteSpace l).
    rewrite IH, filter_trimStart. simpl. unfold notWhiteSpace at 2. by rewrite Hc.
  - simpl. by rewrite IH.
Qed.

Lemma collapse_id (s : list N) :
  adjacentWhiteSpace s = false → collapseSpaces s = s.
Proof.
  induction s as [|c rest E IH|c rest E IH] using collapse_ind; [done| |];
    cbn [adjacentWhiteSpace]; rewrite E; [done|].
  simpl. intros Hadj. by rewrite collapseSpaces_cons, E, IH.
Qed.

Lemma collapse_snoc (s : list N) (c : N) :
  isWhiteSpace c = false → collapseSpaces (s ++ [c]) = collapseSpaces s ++ [c].
Proof.
  intros Hc. induction s as [|x rest E IH|x rest E IH] using collapse_ind.
  - simpl. rewrite collapseSpaces_cons, Hc. simpl. by simp collapseSpaces.
  - rewrite <- app_comm_cons, !collapseSpaces_cons, E.
    apply andb_true_iff in E as [Hx Hrest].
    assert (rest ≠ []) as Hne by (by destruct rest).
    rewrite (startsWith_app rest [c] Hne), Hx, Hrest. simpl.
    by rewrite (trimStart_snoc rest c Hc), IH.
  - rewrite <- app_comm_cons, !collapseSpaces_cons, E.
    replace (isWhiteSpace x && startsWithWhiteSpace (rest ++ [c])) with false.
    + simpl. by rewrite IH.
    + destruct rest as [|y rest]; [simpl; by rewrite Hc, andb_false_r|]. by simpl in *.
Qed.

Lemma endsWith_collapse (s : list N) :
  endsWithWhiteSpace s = false → endsWithWhiteSpace (collapseSpaces s) = false.
Proof.
  destruct (list_snoc_case s) as [-> | (t & c & ->)]; [done|].
  unfold endsWithWhiteSpace. rewrite rev_app_distr. simpl. intros Hc.
  rewrite (collapse_snoc t c Hc), rev_app_distr. simpl. done.
Qed.

Lemma adjacent_take (n : nat) (s : list N) :
  adjacentWhiteSpace s = false → adjacentWhiteSpace (take n s) = false.
Proof.
  revert n. induction s as [|c s IH]; intros n; [by destruct n|].
  destruct n as [|n]; [done|]. cbn [adjacentWhiteSpace take].
  intros [H1 H2]%orb_false_iff. rewrite (IH n H2), orb_false_r.
  destruct (isWhiteSpace c); [|done]. simpl in *.
  destruct s as [|y s]; [by destruct n|]. destruct n; [done|]. by simpl in *.
Qed.

Lemma startsWith_take (n : nat) (s : list N) :
  startsWithWhiteSpace s = false → startsWithWhiteSpace (take n s) = false.
Proof. destruct s, n; done. Qed.

(** X15.  The text of a candidate is at most 100 code units long, does not
    begin with white space and has no two white space characters next to
    each other; unless it was cut at 100 it does not end with white space
    either. *)
Theorem candidateText_shape (s : list N) :
  length (candidateText s) ≤ 100 ∧
  startsWithWhiteSpace (candidateText s) = false ∧
  adjacentWhiteSpace (candidateText s) = false ∧
  (length (collapseSpaces (trim s)) ≤ 100 →
   endsWithWhiteSpace (candidateText s) = false).
Proof.
  unfold candidateText. split_and!.
  - rewrite length_take. lia.
  - apply startsWith_take, startsWith_collapse, startsWith_trim.
  - apply adjacent_take, adjacent_collapse.
  - intros Hlen. rewrite take_ge by done.
    apply endsWith_collapse, endsWith_trim.
Qed.

Lemma candidateText_shape_witness :
  candidateText [32; 32; 97; 9; 10; 98; 32; 99; 32]%N = [97; 32; 98; 32; 99]%N ∧
  endsWithWhiteSpace (candidateText [32; 32; 97; 9; 10; 98; 32; 99; 32]%N) = false.
Proof.
  split; [vm_compute; reflexivity|].
  apply (proj2 (proj2 (proj2 (candidateText_shape [32; 32; 97; 9; 10; 98; 32; 99; 32]%N)))).
  vm_compute. lia.
Defined.

(** X16.  The text of a candidate keeps the characters of the element's
    text that are not white space, in their order: they are a beginning of
    those of the element's text, and all of them when nothing was cut. *)
Theorem candidateText_keeps_characters (s : list N) :
  List.filter notWhiteSpace (candidateText s)
    `prefix_of` List.filter notWhiteSpace s ∧
  (length (collapseSpaces (trim s)) ≤ 100 →
   List.filter notWhiteSpace (candidateText s) = List.filter notWhiteSpace s).
Proof.
  unfold candidateText. split.
  - rewrite <- (filter_trim s), <- (filter_collapse (trim s)).
    rewrite <- (take_drop 100 (collapseSpaces (trim s))) at 2.
    rewrite List.filter_app. by apply prefix_app_r.
  - intros Hlen. by rewrite take_ge, filter_collapse, filter_trim.
Qed.

Lemma candidateText_keeps_characters_witness :
  List.filter notWhiteSpace (candidateText [32; 32; 97; 9; 10; 98; 32; 99; 32]%N)
  = [97; 98; 99]%N.
Proof.
  rewrite (proj2 (candidateText_keeps_characters [32; 32; 97; 9; 10; 98; 32; 99; 32]%N))
    by (vm_compute; lia).
  vm_compute. reflexivity.
Defined.

(** X17.  A text that is already in that shape and at most 100 long is its
    own candidate text; so the candidate text of a candidate text that was
    not cut is the same text; and a text of white space only gives the
    empty text. *)
Theorem candidateText_fixed_points (s : list N) :
  (startsWithWhiteSpace s = false → endsWithWhiteSpace s = false →
   adjacentWhiteSpace s = false → length s ≤ 100 → candidateText s = s) ∧
  (length (collapseSpaces (trim s)) ≤ 100 →
   candidateText (candidateText s) = candidateText s) ∧
  (Forall (fun c => isWhiteSpace c = true) s → candidateText s = []).
Proof.
  assert (∀ t, startsWithWhiteSpace t = false → endsWithWhiteSpace t = false →
               adjacentWhiteSpace t = false → length t ≤ 100 →
               candidateText t = t) as Hfix.
  { intros t Hs He Ha Hlen. unfold candidateText.
    by rewrite (trim_id t Hs He), (collapse_id t Ha), take_ge. }
  split_and!.
  - apply Hfix.
  - intros Hlen. unfold candidateText at 2 3. rewrite take_ge by done.
    apply Hfix; [|apply endsWith_collapse, endsWith_trim|apply adjacent_collapse|done].
    apply startsWith_collapse, startsWith_trim.
  - intros Hall. unfold candidateText. rewrite (trim_all s Hall).
    by simp collapseSpaces.
Qed.

Lemma candidateText_fixed_points_witness :
  candidateText [97; 32; 98]%N = [97; 32; 98]%N ∧
  candidateText (candidateText [32; 97; 32; 32; 98]%N) = candidateText [32; 97; 32; 32; 98]%N ∧
  candidateText [32; 9; 10; 160]%N = [].
Proof.
  split; [|split].
  - apply (proj1 (candidateText_fixed_points [97; 32; 98]%N));
      try (vm_compute; reflexivity). simpl. lia.
  - apply (proj1 (proj2 (candidateText_fixed_points [32; 97; 32; 32; 98]%N))).
    vm_compute. lia.
  - apply (proj2 (proj2 (candidateText_fixed_points [32; 9; 10; 160]%N))).
    repeat constructor.
Defined.

(** ** The overlay boxes on the page *)



Lemma body_marked (L : Layout) (doc : Document) (b : Element) :
  body doc = Some b → body (snd (markPage L doc)) = Some b.
Proof.
  intros Hb. rewrite (markPage_run L doc b Hb). cbn [snd].
  apply body_appendChildren. by rewrite body_tagFrom.
Qed.

(** X19.  A second call of [markPage] on a page with a body that is already
    marked, under the same layout, returns the same indices and leaves
    every index attribute as the first call set it, but appends the overlay
    boxes once more: the body then has the boxes twice. *)
Theorem markPage_twice (L : Layout) (doc : Document) (b : Element) :
  body doc = Some b →
  let doc1 := snd (markPage L doc) in
  let doc2 := snd (markPage L doc1) in
  fst (markPage L doc1) = fst (markPage L doc) ∧
  (∀ e, attributeOf doc2 e elementIndexAttr = attributeOf doc1 e elementIndexAttr) ∧
  ∃ nb nb2, nodeAt doc b = Some nb ∧ nodeAt doc2 b = Some nb2 ∧
            length (children nb2)
            = length (children nb) + 2 * length (overlaysFrom 0 (selectItems L doc)).
Proof.
  intros Hb doc1 doc2.
  pose proof (body_marked L doc b Hb) as Hb1. fold doc1 in Hb1.
  assert (selectItems L doc1 = selectItems L doc) as Hsel.
  { unfold selectItems, doc1. by rewrite (scanPage_marked L L doc b Hb). }
  split_and!.
  - by rewrite (markPage_run L doc1 b Hb1), (markPage_run L doc b Hb), Hsel.
  - intros e. destruct (decide (e ∈ taggedElements L doc1)) as [Hin|Hnot].
    + apply elem_of_taggedElements in Hin as (i & item & Hi & <-).
      unfold doc2. rewrite (attributeOf_marked_tagged L doc1 b i item Hb1 Hi).
      rewrite Hsel in Hi. unfold doc1.
      by rewrite (attributeOf_marked_tagged L doc b i item Hb Hi).
    + by apply (attributeOf_marked_other L doc1 b e Hb1).
  - destruct (body_is_Some doc b Hb) as [nb Hnb].
    destruct (nodeAt_marked_old L doc b b nb Hb Hnb) as (nb1 & Hnb1 & _ & Ha1 & _).
    fold doc1 in Hnb1.
    destruct (nodeAt_marked_old L doc1 b b nb1 Hb1 Hnb1) as (nb2 & Hnb2 & _ & Ha2 & _).
    exists nb, nb2. split_and!; [done|done|].
    rewrite bool_decide_eq_true_2 in Ha1, Ha2 by done.
    rewrite Hsel in Ha2. unfold arity in *. lia.
Qed.

Lemma markPage_twice_witness :
  fst (markPage oneButtonLayout (snd (markPage oneButtonLayout oneButtonDoc)))
  = Normal [0] ∧
  ∃ nb2, nodeAt (snd (markPage oneButtonLayout (snd (markPage oneButtonLayout oneButtonDoc))))
           [0; 1] = Some nb2 ∧ length (children nb2) = 3.
Proof.
  assert (body oneButtonDoc = Some [0; 1]) as Hb by (vm_compute; reflexivity).
  destruct (markPage_twice oneButtonLayout oneButtonDoc [0; 1] Hb)
    as (Hret & _ & nb & nb2 & Hnb & Hnb2 & Hlen).
  split; [rewrite Hret; vm_compute; reflexivity|].
  exists nb2. split; [exact Hnb2|]. rewrite Hlen.
  cbn in Hnb. injection Hnb as <-. vm_compute. reflexivity.
Defined.
